(** * Raw key-range backup coordinator (pkg/raw/full.go)

    A shallow embedding of the backup client: the response classifier
    [onBackupResponse], the leader resolver [findRegionLeader], the
    per-range worker action [handleFineGrained], the fine-grained retry
    loop [fineGrainedBackup] with its goroutines and channels, and the
    entry point [BackupRange].

    Calls that leave the package (placement driver, storage nodes, lock
    resolver, file system, encoders) are fields of a record [External]
    acting on an abstract [World]; every call is also appended to a trace
    of [Event]s, newest first, so that "was called", "was called with" and
    "was never reached" are statements about the trace. *)

From Stdlib Require Import ZArith List Bool String Lia.
From Stdlib.Strings Require Import Byte.
Import ListNotations.
Open Scope Z_scope.

Set Implicit Arguments.

(** ** Wire types (kvproto: backup, kvrpcpb, errorpb, metapb) *)

Definition Key := list byte.

Record File := { Name : string; Sha256 : list byte }.

Record LockInfo := {
  PrimaryLock : Key;
  LockVersion : Z;
  LockKey : Key;
  LockTtl : Z
}.

(** kvrpcpb.KeyError: [Locked] is the only member the client inspects. *)
Record KeyError := {
  Locked : option LockInfo;
  Retryable : string;
  Abort : string
}.

(** errorpb.Error: every member is a pointer in Go; the client only tests
    them against nil, so each is kept as "is set". *)
Record RegionError := {
  Message : string;
  NotLeader : bool;
  RegionNotFound : bool;
  KeyNotInRegion : bool;
  EpochNotMatch : bool;
  ServerIsBusy : bool;
  StaleCommand : bool;
  StoreNotMatch : bool;
  RaftEntryTooLarge : bool
}.

Record ClusterIDError := { Current : Z; Request : Z }.

(** The oneof [Detail] of backup.Error. *)
Inductive ErrorDetail :=
| Error_ClusterIdError (ClusterIdError : ClusterIDError)
| Error_KvError (KvError : KeyError)
| Error_RegionError (RegionErr : RegionError).

Record BackupError := { Msg : string; Detail : option ErrorDetail }.

Record BackupResponse := {
  Error : option BackupError;
  resp_StartKey : Key;
  resp_EndKey : Key;
  resp_Files : list File
}.

Record BackupRequest := {
  ClusterId : Z;
  req_StartKey : Key;
  req_EndKey : Key;
  StartVersion : Z;
  EndVersion : Z;
  req_Path : string
}.

Record BackupMeta := { meta_Files : list File; meta_Path : string }.

Record Peer := { peer_Id : Z; StoreId : Z }.
Record Region := { region_Id : Z; region_StartKey : Key; region_EndKey : Key }.
Record Store := { store_Id : Z; Address : string }.

Record Timestamp := { Physical : Z; Logical : Z }.

(** Range (pkg/raw): a sub-range and the files produced for it. *)
Record Range := { StartKey : Key; EndKey : Key; Files : list File }.

(** tikv.Lock and tikv.NewLock. *)
Record Lock := { lock_Key : Key; Primary : Key; TxnID : Z; TTL : Z }.

Definition NewLock (l : LockInfo) : Lock :=
  {| lock_Key := LockKey l; Primary := PrimaryLock l;
     TxnID := LockVersion l; TTL := LockTtl l |}.

(** ** Errors *)

(** Go [error] values, by the place that creates them. [None : option
    error] is the nil error. *)
Inductive error :=
| External_error (msg : string)
    (* returned by a call outside the package *)
| Trace (err : error)
    (* errors.Trace(err), err non-nil *)
| Errorf_can_not_find_region (key : Key)
    (* errors.Errorf("can not find region for key %v", key) *)
| Errorf_onBackupResponse (v : ErrorDetail)
    (* errors.Errorf("onBackupResponse error %v", v) *)
| Errorf_resp_Error (e : BackupError)
    (* errors.Errorf("%v", resp.Error) *)
| errors_New (msg : string)
| Err_maxSleep_exceeded (typ maxSleep : Z).
    (* the backoffer's budget is spent *)

(** ** The backoffer *)

(** Maximum total sleep time (in ms). *)
Definition backupFineGrainedMaxBackoff : Z := 80000.

(** Modelled from the spec: tikv.Backoffer, a type of the TiKV client
    library whose source is not part of this package; the spec gives it a
    configured ceiling on the total backoff of one invocation and makes
    exceeding the ceiling a fatal timeout.  The state is the ceiling and
    the total slept so far. *)
Record Backoffer := { maxSleep : Z; totalSleep : Z }.

Definition NewBackoffer (maxSleep : Z) : Backoffer :=
  {| maxSleep := maxSleep; totalSleep := 0 |}.

(** [bo.Fork()]: a copy with the same budget and the same total. *)
Definition Fork (bo : Backoffer) : Backoffer := bo.

(** ** Events and the state threaded through the client *)

Inductive Event :=
| EvGetTS
| EvGetAllStores
| EvPushBackup (req : BackupRequest) (stores : list Store)
| EvGetRegion (key : Key)
| EvSleep (ms : Z)
| EvSendBackup (storeID : Z) (req : BackupRequest)
| EvResolveLocks (locks : list Lock)
| EvRound (incomplete : list Range)
    (* a retry round starts with these ranges *)
| EvBackoffMs (ms : Z)
    (* a worker got [ms] back from handleFineGrained *)
| EvRespCh (resp : BackupResponse)
    (* respCh <- response *)
| EvErrCh (err : error)
    (* errCh <- err *)
| EvPutOk (startKey endKey : Key) (files : list File)
| EvBackoff (typ ms : Z)
    (* the coordinator's backoffer sleeps [ms] *)
| EvMarshal (m : BackupMeta)
| EvWriteFile (name : string) (data : list byte) (perm : Z)
| EvCheckDupFiles (dup : list string).

Section Client.

Variable World : Type.

(** The interval ledger of pkg/raw (range_tree.go); the client only goes
    through the operations of [Ledger] below. *)
Variable RangeTree : Type.

Record St := { world : World; trace : list Event }.

(** Start of an invocation: nothing has been called yet. *)
Definition init (w : World) : St := {| world := w; trace := [] |}.

Definition M (A : Type) : Type := St -> A * St.

Definition ret {A} (a : A) : M A := fun s => (a, s).

Definition bind {A B} (c : M A) (k : A -> M B) : M B :=
  fun s => let (a, s') := c s in k a s'.

Notation "x <- c ;; k" := (bind c (fun x => k))
  (at level 61, c at next level, right associativity).
Notation "c ;;; k" := (bind c (fun _ => k))
  (at level 61, right associativity).

(** [call ev f]: run the external call [f] on the world and log [ev]. *)
Definition call {A} (ev : Event) (f : World -> A * World) : M A :=
  fun s => let (a, w) := f (world s) in
           (a, {| world := w; trace := ev :: trace s |}).

Definition log (ev : Event) : M unit :=
  fun s => (tt, {| world := world s; trace := ev :: trace s |}).

(** ** What the client consumes *)

(** Result of the push-down phase: the ledger of confirmed ranges and
    the ledger of failed ones. *)
Record PushResult := { ok : RangeTree; err : RangeTree }.

(** The calls that leave pkg/raw.  [backup_stream] is what a storage
    node answers to one backup call: the responses it streams, then how
    the stream ends (nil for a clean end).  [pushBackup] is the
    push-down phase of push_down.go. *)
Record External := {
  pd_GetTS : World -> (Z * Z * option error) * World;
  pd_GetAllStores : World -> (list Store * option error) * World;
  pd_GetRegion : Key -> World -> (option Region * option Peer * option error) * World;
  backup_stream : Z -> BackupRequest -> World ->
                  (list BackupResponse * option error) * World;
  ResolveLocks : Backoffer -> list Lock -> World -> (Z * option error) * World;
  time_Sleep : Z -> World -> World;
  proto_Marshal : BackupMeta -> list byte * option error;
  ioutil_WriteFile : string -> list byte -> Z -> World -> option error * World;
  codec_EncodeBytes : list byte -> list byte -> list byte;
  meta_EncodeTs : Timestamp -> Z;
  pushBackup : BackupRequest -> list Store -> World ->
               (PushResult * option error) * World
}.

Variable E : External.

Definition GetTS : M (Z * Z * option error) := call EvGetTS (pd_GetTS E).

Definition GetAllStores : M (list Store * option error) :=
  call EvGetAllStores (pd_GetAllStores E).

Definition GetRegion (key : Key) : M (option Region * option Peer * option error) :=
  call (EvGetRegion key) (pd_GetRegion E key).

Definition Sleep (ms : Z) : M unit :=
  call (EvSleep ms) (fun w => (tt, time_Sleep E ms w)).

Definition lockResolver_ResolveLocks (bo : Backoffer) (locks : list Lock)
  : M (Z * option error) :=
  call (EvResolveLocks locks) (ResolveLocks E bo locks).

(** ** onBackupResponse *)

(** The test of lines 276-281: one of the six members is set. *)
Definition ignorable (regionErr : RegionError) : bool :=
  EpochNotMatch regionErr || NotLeader regionErr || RegionNotFound regionErr
  || StaleCommand regionErr || ServerIsBusy regionErr || StoreNotMatch regionErr.

Definition onBackupResponse (bo : Backoffer) (resp : BackupResponse)
  : M (option BackupResponse * Z * option error) :=
  match Error resp with
  | None => ret (Some resp, 0, None)
  | Some resp_Error =>
    let backoffMs := 0 in
    match Detail resp_Error with
    | Some (Error_KvError v as d) =>
      match Locked v with
      | Some lockErr =>
        r <- lockResolver_ResolveLocks bo [NewLock lockErr] ;;
        let (msBeforeExpired, err1) := r in
        match err1 with
        | Some err1 => ret (None, 0, Some (Trace err1))
        | None =>
          let backoffMs :=
            if 0 <? msBeforeExpired then msBeforeExpired else backoffMs in
          ret (None, backoffMs, None)
        end
      | None => ret (None, backoffMs, Some (Errorf_onBackupResponse d))
      end
    | Some (Error_RegionError regionErr as d) =>
      if negb (ignorable regionErr)
      then ret (None, backoffMs, Some (Errorf_onBackupResponse d))
      else
        let backoffMs := 1000 in
        ret (None, backoffMs, None)
    | Some (Error_ClusterIdError _) =>
      ret (None, 0, Some (Errorf_resp_Error resp_Error))
    | None => ret (None, 0, Some (Errorf_resp_Error resp_Error))
    end
  end.

(** ** findRegionLeader *)

(** The [for i := 0; i < 5; i++] loop with [n] iterations left; [key] is
    already encoded. *)
Fixpoint findRegionLeader_loop (n : nat) (i : Z) (key : Key) : M (Peer + error) :=
  match n with
  | O => ret (inr (Errorf_can_not_find_region key))
  | S n' =>
    r <- GetRegion key ;;
    match r with
    | (_, _, Some _) =>
      Sleep (100 * i) ;;; findRegionLeader_loop n' (i + 1) key
    | (_, Some leader, None) => ret (inl leader)
    | (_, None, None) =>
      Sleep (100 * i) ;;; findRegionLeader_loop n' (i + 1) key
    end
  end.

Definition findRegionLeader (key : Key) : M (Peer + error) :=
  let key := codec_EncodeBytes E [] key in
  findRegionLeader_loop 5 0 key.

(** ** handleFineGrained *)

(** Modelled from the spec: Backer.SendBackup, of package meta, whose
    source is not part of this package.  It issues the per-range backup
    call and hands every response of the node to the callback, in order;
    it stops at the first error the callback returns and returns that
    error, and otherwise returns how the stream ended.  [S] is what the
    callback closes over. *)
Fixpoint SendBackup_recv {S} (respFn : BackupResponse -> S -> M (option error * S))
    (resps : list BackupResponse) (fin : option error) (c : S)
  : M (option error * S) :=
  match resps with
  | [] => ret (fin, c)
  | resp :: rest =>
    r <- respFn resp c ;;
    match r with
    | (Some err, c') => ret (Some err, c')
    | (None, c') => SendBackup_recv respFn rest fin c'
    end
  end.

Definition SendBackup {S} (storeID : Z) (req : BackupRequest)
    (respFn : BackupResponse -> S -> M (option error * S)) (c : S)
  : M (option error * S) :=
  stream <- call (EvSendBackup storeID req) (backup_stream E storeID req) ;;
  SendBackup_recv respFn (fst stream) (snd stream) c.

(** What the callback of handleFineGrained closes over: the local [max]
    and the channel [respCh], kept as the responses sent on it so far. *)
Record Captured := { max : Z; sent : list BackupResponse }.

(** The callback of lines 328-341. *)
Definition respFn (bo : Backoffer) (resp : BackupResponse) (c : Captured)
  : M (option error * Captured) :=
  r <- onBackupResponse bo resp ;;
  match r with
  | (_, _, Some err) => ret (Some err, c)
  | (response, backoffMs, None) =>
    let max' := if max c <? backoffMs then backoffMs else max c in
    let sent' := match response with
                 | Some response => sent c ++ [response]
                 | None => sent c
                 end in
    ret (None, {| max := max'; sent := sent' |})
  end.

Record BackupClient := { clusterID : Z }.

(** Returns the responses it sent on [respCh], in order, next to the
    (int, error) pair of the source. *)
Definition handleFineGrained (bc : BackupClient) (bo : Backoffer) (rg : Range)
    (backupTS : Z) (path : string)
  : M (list BackupResponse * Z * option error) :=
  l <- findRegionLeader (StartKey rg) ;;
  match l with
  | inr pderr => ret ([], 0, Some pderr)
  | inl leader =>
    let req := {| ClusterId := clusterID bc;
                  req_StartKey := StartKey rg;
                  req_EndKey := EndKey rg;
                  StartVersion := backupTS;
                  EndVersion := backupTS;
                  req_Path := path |} in
    r <- SendBackup (StoreId leader) req (respFn bo)
           {| max := 0; sent := [] |} ;;
    match r with
    | (Some err, c) => ret (sent c, 0, Some err)
    | (None, c) => ret (sent c, max c, None)
    end
  end.

(** ** The ledger *)

(** The operations of RangeTree the client uses.  [Ascend] lists the
    entries in key order.  Modelled from the spec: checkDupFiles, of
    range_tree.go, whose source is not at hand, scans the flattened file
    list for colliding names and reports them as a warning; it returns to
    the caller, which ignores it. *)
Record Ledger := {
  getIncompleteRange : RangeTree -> Key -> Key -> list Range;
  putOk : RangeTree -> Key -> Key -> list File -> RangeTree;
  Ascend : RangeTree -> list Range;
  checkDupFiles : RangeTree -> list string
}.

Variable L : Ledger.

(** Modelled from the spec: Backoffer.BackoffWithMaxSleep, of the TiKV
    client library: the coordinator sleeps for the delay it is given, the
    total over the invocation stays within the ceiling, and a delay that
    would exceed the ceiling is a timeout error instead of a sleep. *)
Definition BackoffWithMaxSleep (bo : Backoffer) (typ maxSleepMs : Z) (cause : error)
  : M (option error * Backoffer) :=
  let total := totalSleep bo + maxSleepMs in
  if maxSleep bo <? total
  then ret (Some (Err_maxSleep_exceeded typ (maxSleep bo)), bo)
  else
    call (EvBackoff typ maxSleepMs) (fun w => (tt, time_Sleep E maxSleepMs w)) ;;;
    ret (None, {| maxSleep := maxSleep bo; totalSleep := total |}).

(** ** fineGrainedBackup: goroutines and channels *)

(** One of the four goroutines started at line 176.  The calls of one
    handleFineGrained are taken in one step; what it sends on respCh is
    then delivered one response at a time, each send waiting for room in
    the channel, and only after the last one the call returns. *)
Inductive Worker :=
| Idle
    (* at [for rg := range retry] *)
| Sending (pending : list BackupResponse) (backoffMs : Z) (err : option error)
    (* in handleFineGrained: still has to send [pending] on respCh, then
       returns (backoffMs, err) *)
| Done.
    (* returned; wg.Done() has run *)

Definition is_Done (w : Worker) : bool :=
  match w with Done => true | _ => false end.

(** The state of one round of the [for] loop of line 156, between the
    start of the goroutines and the end of [selectLoop]. *)
Record Round := {
  st : St;
  bo : Backoffer;
  rangeTree : RangeTree;
  to_send : list Range;         (* dispatcher: ranges not yet sent on retry *)
  retry : list Range;           (* chan Range, capacity 4 *)
  retry_closed : bool;
  workers : list Worker;
  respCh : list BackupResponse; (* capacity 4 *)
  respCh_closed : bool;
  errCh : list error;           (* capacity 4 *)
  max_ms : Z                    (* max.ms, under max.mu *)
}.

Inductive Status :=
| Running (r : Round)
| Returned (err : option error) (rangeTree : RangeTree) (s : St)
| Fatal (s : St).
    (* log.Fatal at line 218: the process exits *)

(** Who moves next.  The coordinator sits in the [select] of line 208;
    when both of its cases are ready Go takes one of them at random, so
    the case it takes is part of the schedule. *)
Inductive Choice :=
| Dispatcher
| WorkerStep (i : nat)
| SelectErr
| SelectResp.

Fixpoint set_worker (i : nat) (w : Worker) (ws : list Worker) : list Worker :=
  match ws, i with
  | [], _ => []
  | _ :: ws', O => w :: ws'
  | w0 :: ws', S i' => w0 :: set_worker i' w ws'
  end.

Definition logged (ev : Event) (s : St) : St := snd (log ev s).

Section FineGrained.

Variable bc : BackupClient.
Variables startKey endKey : Key.
Variable backupTS : Z.
Variable path : string.

(** Lines 197-204: send the ranges on [retry], close it, wait for the
    workers, close [respCh].  A step that cannot proceed leaves the round
    as it is. *)
Definition dispatcher_step (r : Round) : Round :=
  match to_send r with
  | rg :: rest =>
    if (List.length (retry r) <? 4)%nat
    then {| st := st r; bo := bo r; rangeTree := rangeTree r;
            to_send := rest; retry := retry r ++ [rg];
            retry_closed := retry_closed r; workers := workers r;
            respCh := respCh r; respCh_closed := respCh_closed r;
            errCh := errCh r; max_ms := max_ms r |}
    else r
  | [] =>
    if negb (retry_closed r)
    then {| st := st r; bo := bo r; rangeTree := rangeTree r;
            to_send := []; retry := retry r;
            retry_closed := true; workers := workers r;
            respCh := respCh r; respCh_closed := respCh_closed r;
            errCh := errCh r; max_ms := max_ms r |}
    else if forallb is_Done (workers r)
    then {| st := st r; bo := bo r; rangeTree := rangeTree r;
            to_send := []; retry := retry r;
            retry_closed := true; workers := workers r;
            respCh := respCh r; respCh_closed := true;
            errCh := errCh r; max_ms := max_ms r |}
    else r
  end.

(** Lines 176-193, one worker. *)
Definition worker_step (i : nat) (r : Round) : Round :=
  match nth_error (workers r) i with
  | Some Idle =>
    match retry r with
    | rg :: rest =>
      let '(sent, backoffMs, err, s) :=
        handleFineGrained bc (Fork (bo r)) rg backupTS path (st r) in
      {| st := s; bo := bo r; rangeTree := rangeTree r;
         to_send := to_send r; retry := rest;
         retry_closed := retry_closed r;
         workers := set_worker i (Sending sent backoffMs err) (workers r);
         respCh := respCh r; respCh_closed := respCh_closed r;
         errCh := errCh r; max_ms := max_ms r |}
    | [] =>
      if retry_closed r
      then {| st := st r; bo := bo r; rangeTree := rangeTree r;
              to_send := to_send r; retry := [];
              retry_closed := retry_closed r;
              workers := set_worker i Done (workers r);
              respCh := respCh r; respCh_closed := respCh_closed r;
              errCh := errCh r; max_ms := max_ms r |}
      else r
    end
  | Some (Sending (response :: pending) backoffMs err) =>
    if (List.length (respCh r) <? 4)%nat
    then {| st := logged (EvRespCh response) (st r);
            bo := bo r; rangeTree := rangeTree r;
            to_send := to_send r; retry := retry r;
            retry_closed := retry_closed r;
            workers := set_worker i (Sending pending backoffMs err) (workers r);
            respCh := respCh r ++ [response];
            respCh_closed := respCh_closed r;
            errCh := errCh r; max_ms := max_ms r |}
    else r
  | Some (Sending [] _ (Some err)) =>
    if (List.length (errCh r) <? 4)%nat
    then {| st := logged (EvErrCh err) (st r);
            bo := bo r; rangeTree := rangeTree r;
            to_send := to_send r; retry := retry r;
            retry_closed := retry_closed r;
            workers := set_worker i Done (workers r);
            respCh := respCh r; respCh_closed := respCh_closed r;
            errCh := errCh r ++ [err]; max_ms := max_ms r |}
    else r
  | Some (Sending [] backoffMs None) =>
    {| st := logged (EvBackoffMs backoffMs) (st r);
       bo := bo r; rangeTree := rangeTree r;
       to_send := to_send r; retry := retry r;
       retry_closed := retry_closed r;
       workers := set_worker i Idle (workers r);
       respCh := respCh r; respCh_closed := respCh_closed r;
       errCh := errCh r;
       max_ms := if backoffMs =? 0 then max_ms r
                 else if max_ms r <? backoffMs then backoffMs
                 else max_ms r |}
  | Some Done | None => r
  end.

(** Lines 157-194: the head of the [for] loop.  With nothing incomplete
    the function returns; otherwise the channels are made and the four
    workers and the dispatcher are started. *)
Definition loop_head (bo : Backoffer) (rangeTree : RangeTree) (s : St) : Status :=
  let incomplete := getIncompleteRange L rangeTree startKey endKey in
  match incomplete with
  | [] => Returned None rangeTree s
  | _ :: _ =>
    Running {| st := logged (EvRound incomplete) s;
               bo := bo; rangeTree := rangeTree;
               to_send := incomplete; retry := []; retry_closed := false;
               workers := repeat Idle 4;
               respCh := []; respCh_closed := false;
               errCh := []; max_ms := 0 |}
  end.

(** Lines 229-240, then the next round. *)
Definition step3 (r : Round) : Status :=
  let ms := max_ms r in
  if ms =? 0 then loop_head (bo r) (rangeTree r) (st r)
  else
    let '(err, bo', s) :=
      BackoffWithMaxSleep (bo r) 2 ms (errors_New "TODO: attach error") (st r) in
    match err with
    | Some err => Returned (Some (Trace err)) (rangeTree r) s
    | None => loop_head bo' (rangeTree r) s
    end.

(** [case err := <-errCh] *)
Definition select_err (r : Round) : Status :=
  match errCh r with
  | err :: _ => Returned (Some err) (rangeTree r) (st r)
  | [] => Running r
  end.

(** [case resp, ok := <-respCh] *)
Definition select_resp (r : Round) : Status :=
  match respCh r with
  | resp :: rest =>
    match Error resp with
    | Some _ => Fatal (st r)
    | None =>
      Running {| st := logged (EvPutOk (resp_StartKey resp) (resp_EndKey resp)
                                 (resp_Files resp)) (st r);
                 bo := bo r;
                 rangeTree := putOk L (rangeTree r) (resp_StartKey resp)
                                (resp_EndKey resp) (resp_Files resp);
                 to_send := to_send r; retry := retry r;
                 retry_closed := retry_closed r; workers := workers r;
                 respCh := rest; respCh_closed := respCh_closed r;
                 errCh := errCh r; max_ms := max_ms r |}
    end
  | [] => if respCh_closed r then step3 r else Running r
  end.

Definition step (c : Choice) (r : Round) : Status :=
  match c with
  | Dispatcher => Running (dispatcher_step r)
  | WorkerStep i => Running (worker_step i r)
  | SelectErr => select_err r
  | SelectResp => select_resp r
  end.

(** Run the goroutines in the order [sched] gives.  A result other than
    [Running] is final; [Running] at the end of [sched] means the function
    has not returned yet. *)
Fixpoint run (sched : list Choice) (status : Status) : Status :=
  match sched, status with
  | c :: sched', Running r => run sched' (step c r)
  | _, _ => status
  end.

Definition fineGrainedBackup (sched : list Choice) (rangeTree : RangeTree)
    (s : St) : Status :=
  let bo := NewBackoffer backupFineGrainedMaxBackoff in
  run sched (loop_head bo rangeTree s).

End FineGrained.

(** ** BackupRange *)

Inductive Result :=
| Return (err : option error)
| Exit          (* log.Fatal *)
| Unfinished.   (* [sched] ended inside fineGrainedBackup *)

(** [results.ok] and the [rangeTree] of fineGrainedBackup share one
    B-tree, so the ledger read at lines 100-104 and 116 is the one the
    retry loop left.  The log lines are not events of the trace; the one
    at lines 89-90 reports the sizes of both ledgers of the push-down and
    is the only place where [results.err] is read. *)
Definition BackupRange (sched : list Choice) (bc : BackupClient)
    (startKey endKey : Key) (path : string) (s : St) : Result * St :=
  let '(p, l, err, s) := GetTS s in
  match err with Some err => (Return (Some (Trace err)), s) | None =>
  let ts := {| Physical := p; Logical := l |} in
  let backupTS := meta_EncodeTs E ts in
  let '(allStores, err, s) := GetAllStores s in
  match err with Some err => (Return (Some (Trace err)), s) | None =>
  let req := {| ClusterId := clusterID bc;
                req_StartKey := startKey;
                req_EndKey := endKey;
                StartVersion := backupTS;
                EndVersion := backupTS;
                req_Path := path |} in
  let '(results, err, s) :=
    call (EvPushBackup req allStores) (pushBackup E req allStores) s in
  match err with Some err => (Return (Some err), s) | None =>
  match fineGrainedBackup bc startKey endKey backupTS path sched (ok results) s with
  | Running r => (Unfinished, st r)
  | Fatal s => (Exit, s)
  | Returned (Some err) _ s => (Return (Some err), s)
  | Returned None results_ok s =>
    let backupMeta := {| meta_Files := flat_map Files (Ascend L results_ok);
                         meta_Path := path |} in
    let '(backupMetaData, err, s) :=
      call (EvMarshal backupMeta) (fun w => (proto_Marshal E backupMeta, w)) s in
    match err with Some err => (Return (Some (Trace err)), s) | None =>
    let '(err, s) :=
      call (EvWriteFile "backupmeta" backupMetaData 420)
           (ioutil_WriteFile E "backupmeta" backupMetaData 420) s in
    match err with Some err => (Return (Some (Trace err)), s) | None =>
    let '(_, s) := log (EvCheckDupFiles (checkDupFiles L results_ok)) s in
    (Return None, s)
    end end
  end end end end.

End Client.

Arguments Returned {World RangeTree} err rangeTree s.
Arguments Fatal {World RangeTree} s.
Arguments init {World} w.

(** ** Reading the trace and the world *)

Section Observations.

Variables World RangeTree : Type.
Variable E : External World RangeTree.

(** What a lookup found: a leader, and no error. *)
Definition found (r : option Region * option Peer * option error) : option Peer :=
  match r with
  | (_, Some leader, None) => Some leader
  | _ => None
  end.

(** The world after [n] lookups of [key] that found nothing, the [i]-th
    of them followed by a sleep of [100 * i] ms. *)
Fixpoint world_after (key : Key) (n : nat) (w : World) : World :=
  match n with
  | O => w
  | S n' =>
    time_Sleep E (100 * Z.of_nat n')
      (snd (pd_GetRegion E key (world_after key n' w)))
  end.

(** The answer to lookup number [n] (from 0) when the ones before it
    found nothing. *)
Definition lookup (key : Key) (n : nat) (w : World)
  : option Region * option Peer * option error :=
  fst (pd_GetRegion E key (world_after key n w)).

(** The events of those [n] lookups, newest first. *)
Fixpoint failed_lookups (key : Key) (n : nat) : list Event :=
  match n with
  | O => []
  | S n' => EvSleep (100 * Z.of_nat n') :: EvGetRegion key :: failed_lookups key n'
  end.

End Observations.

(** [tr'] is [tr] followed by newer events, all of them in [A]. *)
Definition extends (A : Event -> Prop) (tr tr' : list Event) : Prop :=
  exists new, tr' = new ++ tr /\ Forall A new.

(** The events one call of handleFineGrained can add: lookups, sleeps,
    lock resolutions, and backup calls whose request is built from the
    arguments of the call. *)
Definition worker_event (bc : BackupClient) (backupTS : Z) (path : string)
    (ev : Event) : Prop :=
  match ev with
  | EvGetRegion _ | EvSleep _ | EvResolveLocks _ => True
  | EvSendBackup _ req =>
    ClusterId req = clusterID bc /\ StartVersion req = backupTS /\
    EndVersion req = backupTS /\ req_Path req = path
  | _ => False
  end.

(** The events fineGrainedBackup can add. *)
Definition fineGrained_event (bc : BackupClient) (backupTS : Z) (path : string)
    (ev : Event) : Prop :=
  match ev with
  | EvRound _ | EvBackoffMs _ | EvErrCh _ | EvPutOk _ _ _ | EvBackoff _ _ => True
  | EvRespCh resp => Error resp = None
  | _ => worker_event bc backupTS path ev
  end.

(** The events of the current round: those newer than the last
    [EvRound]. *)
Fixpoint this_round (tr : list Event) : list Event :=
  match tr with
  | [] => []
  | EvRound _ :: _ => []
  | ev :: tr' => ev :: this_round tr'
  end.

(** The largest backoff a worker got back, 0 when there is none. *)
Fixpoint max_backoff (tr : list Event) : Z :=
  match tr with
  | [] => 0
  | EvBackoffMs ms :: tr' => Z.max ms (max_backoff tr')
  | _ :: tr' => max_backoff tr'
  end.

(** The total the coordinator's backoffer slept. *)
Fixpoint slept (tr : list Event) : Z :=
  match tr with
  | [] => 0
  | EvBackoff _ ms :: tr' => ms + slept tr'
  | _ :: tr' => slept tr'
  end.

(** How the coordinator backs off between rounds, read from the trace.
    Every sleep of its backoffer is of type 2 and lasts the largest
    backoff recorded in the round before it, which is not 0; and a round
    that starts without such a sleep follows a round in which no backoff
    was recorded. *)
Fixpoint backoff_discipline (tr : list Event) : Prop :=
  match tr with
  | [] => True
  | EvBackoff typ ms :: tr' =>
    typ = 2 /\ ms <> 0 /\ ms = max_backoff (this_round tr') /\
    backoff_discipline tr'
  | EvRound _ :: tr' =>
    match tr' with
    | EvBackoff _ _ :: _ => True
    | _ => max_backoff (this_round tr') = 0
    end /\ backoff_discipline tr'
  | _ :: tr' => backoff_discipline tr'
  end.

Definition no_Error (resp : BackupResponse) : Prop := Error resp = None.

(** ** What holds in every round *)

Section Invariant.

Variables World RangeTree : Type.
Variable L : Ledger RangeTree.
Variable bc : BackupClient.
Variables startKey endKey : Key.
Variable backupTS : Z.
Variable path : string.

(** [tr0] is the trace fineGrainedBackup started from. *)
Variable tr0 : list Event.

Record Inv (r : Round World RangeTree) : Prop := {
  inv_trace :
    extends (fineGrained_event bc backupTS path) tr0 (trace (st r));
  inv_respCh : Forall no_Error (respCh r);
  inv_pending : forall pending backoffMs err,
    In (Sending pending backoffMs err) (workers r) -> Forall no_Error pending;
  inv_max : max_ms r = max_backoff (this_round (trace (st r)));
  inv_maxSleep : maxSleep (bo r) = backupFineGrainedMaxBackoff;
  inv_slept : slept (trace (st r)) = slept tr0 + totalSleep (bo r);
  inv_budget : 0 <= totalSleep (bo r) <= backupFineGrainedMaxBackoff;
  inv_errCh : forall err,
    In err (errCh r) -> In (EvErrCh err) (this_round (trace (st r)))
}.

(** The ways fineGrainedBackup returns: nil with nothing incomplete; an
    error a worker sent on errCh in the round that just ran; the timeout
    of the backoffer, when the round's largest backoff no longer fits in
    the budget. *)
Definition exit_ok (err : option error) (rangeTree : RangeTree)
    (tr : list Event) : Prop :=
  match err with
  | None => getIncompleteRange L rangeTree startKey endKey = []
  | Some err =>
    In (EvErrCh err) (this_round tr) \/
    (err = Trace (Err_maxSleep_exceeded 2 backupFineGrainedMaxBackoff) /\
     max_backoff (this_round tr) <> 0 /\
     backupFineGrainedMaxBackoff <
       slept tr - slept tr0 + max_backoff (this_round tr))
  end.

Definition Inv_status (status : Status World RangeTree) : Prop :=
  match status with
  | Running r => Inv r
  | Returned err rangeTree s =>
    extends (fineGrained_event bc backupTS path) tr0 (trace s) /\
    0 <= slept (trace s) - slept tr0 <= backupFineGrainedMaxBackoff /\
    exit_ok err rangeTree (trace s)
  | Fatal _ => False
  end.

(** The trace a status has reached keeps the backoff discipline. *)
Definition disciplined (status : Status World RangeTree) : Prop :=
  match status with
  | Running r => backoff_discipline (trace (st r))
  | Returned _ _ s => backoff_discipline (trace s)
  | Fatal _ => True
  end.

End Invariant.

(** ** Statements about whole invocations *)

(** The end of a round: respCh is closed and empty, so the receive of
    line 212 finds [ok] false and the coordinator leaves [selectLoop] for
    step 3. *)
Definition round_over {World RangeTree} (r : Round World RangeTree) : bool :=
  match respCh r with
  | [] => respCh_closed r
  | _ :: _ => false
  end.

(** A forwarded response carries no error. *)
Definition forwarded_ok (ev : Event) : Prop :=
  match ev with
  | EvRespCh resp => Error resp = None
  | _ => True
  end.

(** A backup request, broadcast or per range, is taken at [ts]. *)
Definition at_timestamp (ts : Z) (ev : Event) : Prop :=
  match ev with
  | EvPushBackup req _ | EvSendBackup _ req =>
    StartVersion req = ts /\ EndVersion req = ts
  | _ => True
  end.

Definition is_GetTS (ev : Event) : bool :=
  match ev with EvGetTS => true | _ => false end.

(** How many timestamps were allocated. *)
Definition allocations (tr : list Event) : nat :=
  List.length (filter is_GetTS tr).

Definition is_WriteFile (ev : Event) : bool :=
  match ev with EvWriteFile _ _ _ => true | _ => false end.

(** The manifest write was reached. *)
Definition write_reached (tr : list Event) : bool := existsb is_WriteFile tr.

(** The same ledger with another audit. *)
Definition with_audit {RangeTree} (L : Ledger RangeTree)
    (audit : RangeTree -> list string) : Ledger RangeTree :=
  {| getIncompleteRange := getIncompleteRange L;
     putOk := putOk L;
     Ascend := Ascend L;
     checkDupFiles := audit |}.

(** The errors sent on errCh, newest first. *)
Fixpoint sent_on_errCh (tr : list Event) : list error :=
  match tr with
  | [] => []
  | EvErrCh err :: tr' => err :: sent_on_errCh tr'
  | _ :: tr' => sent_on_errCh tr'
  end.

(** The ranges each round started with, newest round first. *)
Fixpoint rounds (tr : list Event) : list (list Range) :=
  match tr with
  | [] => []
  | EvRound incomplete :: tr' => incomplete :: rounds tr'
  | _ :: tr' => rounds tr'
  end.

(** ** A reference ledger and scripted collaborators for concrete runs *)

Module Reference.

(** Keys are ordered as byte strings. *)
Fixpoint key_compare (a b : Key) : comparison :=
  match a, b with
  | [], [] => Eq
  | [], _ :: _ => Lt
  | _ :: _, [] => Gt
  | x :: a', y :: b' =>
    match N.compare (Byte.to_N x) (Byte.to_N y) with
    | Eq => key_compare a' b'
    | c => c
    end
  end.

Definition key_ltb (a b : Key) : bool :=
  match key_compare a b with Lt => true | _ => false end.

(** [k] lies before the end bound [e]; an empty end bound is infinity. *)
Definition lt_end (k e : Key) : bool :=
  match e with [] => true | _ :: _ => key_ltb k e end.

Definition min_end (a b : Key) : Key :=
  match a, b with
  | [], _ => b
  | _, [] => a
  | _, _ => if key_ltb a b then a else b
  end.

Definition key_max (a b : Key) : Key := if key_ltb a b then b else a.

(** Modelled from the spec: complement(start, end) of the interval
    ledger, range_tree.go, whose source is not at hand: walk the
    confirmed ranges in key order and emit the gaps before, between and after them that fall
    inside [start, end); on an empty ledger the result is [start, end)
    itself.  [last] is the point up to which the request is covered. *)
Fixpoint gaps (last endKey : Key) (l : list Range) : list Range :=
  if negb (lt_end last endKey) then []
  else
    match l with
    | [] => [ {| StartKey := last; EndKey := endKey; Files := [] |} ]
    | rg :: l' =>
      let gap :=
        if key_ltb last (StartKey rg)
        then [ {| StartKey := last; EndKey := min_end (StartKey rg) endKey;
                  Files := [] |} ]
        else [] in
      match EndKey rg with
      | [] => gap
      | e => gap ++ gaps (key_max last e) endKey l'
      end
    end.

Definition overlaps (s e : Key) (rg : Range) : bool :=
  lt_end (StartKey rg) e && lt_end s (EndKey rg).

Fixpoint insert_sorted (rg : Range) (l : list Range) : list Range :=
  match l with
  | [] => [rg]
  | x :: l' =>
    if key_ltb (StartKey rg) (StartKey x) then rg :: l
    else x :: insert_sorted rg l'
  end.

(** Modelled from the spec: confirm(start, end, files) replaces whatever
    it overlaps, so that overlapping coverage is not counted twice. *)
Definition confirm (l : list Range) (s e : Key) (files : list File) : list Range :=
  insert_sorted {| StartKey := s; EndKey := e; Files := files |}
    (filter (fun rg => negb (overlaps s e rg)) l).

(** Modelled from the spec: the duplicate-file audit lists the names met
    more than once in the flattened file list. *)
Fixpoint dup_names (seen names : list string) : list string :=
  match names with
  | [] => []
  | n :: rest =>
    if existsb (String.eqb n) seen then n :: dup_names seen rest
    else dup_names (n :: seen) rest
  end.

Definition ledger : Ledger (list Range) :=
  {| getIncompleteRange := fun l s e => gaps s e l;
     putOk := confirm;
     Ascend := fun l => l;
     checkDupFiles := fun l => dup_names [] (map Name (flat_map Files l)) |}.

(** Collaborators that follow a script.  The world is the number of
    calls made so far, and every answer may depend on it. *)
Record Script := {
  on_GetTS : Z * Z * option error;
  on_GetAllStores : list Store * option error;
  on_pushBackup : PushResult (list Range) * option error;
  on_GetRegion : nat -> Key -> option Region * option Peer * option error;
  on_backup : nat -> Z -> BackupRequest -> list BackupResponse * option error;
  on_ResolveLocks : nat -> list Lock -> Z * option error;
  on_Marshal : BackupMeta -> list byte * option error;
  on_WriteFile : option error
}.

Definition scripted (sc : Script) : External nat (list Range) :=
  {| pd_GetTS := fun w => (on_GetTS sc, S w);
     pd_GetAllStores := fun w => (on_GetAllStores sc, S w);
     pd_GetRegion := fun key w => (on_GetRegion sc w key, S w);
     backup_stream := fun storeID req w => (on_backup sc w storeID req, S w);
     ResolveLocks := fun _ locks w => (on_ResolveLocks sc w locks, S w);
     time_Sleep := fun _ w => S w;
     proto_Marshal := on_Marshal sc;
     ioutil_WriteFile := fun _ _ _ w => (on_WriteFile sc, S w);
     codec_EncodeBytes := fun b data => (b ++ data ++ ["000"%byte])%list;
     meta_EncodeTs := fun ts => Physical ts * 262144 + Logical ts;
     pushBackup := fun _ _ w => (on_pushBackup sc, S w) |}.

(** *** Scenarios *)

Definition ka : Key := ["a"%byte].
Definition kf : Key := ["f"%byte].
Definition kk : Key := ["k"%byte].
Definition km : Key := ["m"%byte].

Definition file1 : File := {| Name := "1.sst"; Sha256 := [] |}.
Definition file2 : File := {| Name := "2.sst"; Sha256 := [] |}.
Definition file3 : File := {| Name := "3.sst"; Sha256 := [] |}.

Definition key_eqb (a b : Key) : bool :=
  match key_compare a b with Eq => true | _ => false end.

Definition client : BackupClient := {| clusterID := 42 |}.

Definition store1 : Store := {| store_Id := 1; Address := "tikv-1" |}.
Definition leader1 : Peer := {| peer_Id := 7; StoreId := 1 |}.

(** A node confirms the range it was asked for. *)
Definition confirmed (req : BackupRequest) (f : File) : BackupResponse :=
  {| Error := None; resp_StartKey := req_StartKey req;
     resp_EndKey := req_EndKey req; resp_Files := [f] |}.

Definition failed (e : BackupError) : BackupResponse :=
  {| Error := Some e; resp_StartKey := []; resp_EndKey := []; resp_Files := [] |}.

Definition unknown_error : BackupError := {| Msg := "unknown"; Detail := None |}.

Definition a_lock : LockInfo :=
  {| PrimaryLock := ka; LockVersion := 9; LockKey := ka; LockTtl := 3000 |}.

Definition lock_conflict : BackupError :=
  {| Msg := "locked";
     Detail := Some (Error_KvError
                 {| Locked := Some a_lock; Retryable := ""; Abort := "" |}) |}.

Definition not_leader : RegionError :=
  {| Message := "not leader"; NotLeader := true; RegionNotFound := false;
     KeyNotInRegion := false; EpochNotMatch := false; ServerIsBusy := false;
     StaleCommand := false; StoreNotMatch := false; RaftEntryTooLarge := false |}.

Definition region_error : BackupError :=
  {| Msg := "region"; Detail := Some (Error_RegionError not_leader) |}.

(** The push-down confirmed [f, k) of the request [a, m). *)
Definition pushed : PushResult (list Range) :=
  {| ok := [ {| StartKey := kf; EndKey := kk; Files := [file2] |} ]; err := [] |}.


Definition file_for (req : BackupRequest) : File :=
  if key_eqb (req_StartKey req) kk then file3 else file1.

(** Every call succeeds at once. *)
Definition calm : Script :=
  {| on_GetTS := (5, 7, None);
     on_GetAllStores := ([store1], None);
     on_pushBackup := (pushed, None);
     on_GetRegion := fun _ _ => (None, Some leader1, None);
     on_backup := fun _ _ req => ([confirmed req (file_for req)], None);
     on_ResolveLocks := fun _ _ => (0, None);
     on_Marshal := fun m => (map (fun _ => "001"%byte) (meta_Files m), None);
     on_WriteFile := None |}.

(** As [calm], but the manifest cannot be written. *)
Definition disk_full : Script :=
  {| on_GetTS := on_GetTS calm;
     on_GetAllStores := on_GetAllStores calm;
     on_pushBackup := on_pushBackup calm;
     on_GetRegion := on_GetRegion calm;
     on_backup := on_backup calm;
     on_ResolveLocks := on_ResolveLocks calm;
     on_Marshal := on_Marshal calm;
     on_WriteFile := Some (External_error "no space left on device") |}.

(** As [calm], but the node answers the first call for [k, m) with an
    error it gives no detail for; later calls succeed. *)
Definition hiccup : Script :=
  {| on_GetTS := on_GetTS calm;
     on_GetAllStores := on_GetAllStores calm;
     on_pushBackup := on_pushBackup calm;
     on_GetRegion := on_GetRegion calm;
     on_backup := fun w storeID req =>
       if key_eqb (req_StartKey req) kk && (w <? 8)%nat
       then ([failed unknown_error], None)
       else on_backup calm w storeID req;
     on_ResolveLocks := on_ResolveLocks calm;
     on_Marshal := on_Marshal calm;
     on_WriteFile := None |}.

(** As [calm], but the placement driver finds no leader for [k] during
    the first round. *)
Definition leaderless : Script :=
  {| on_GetTS := on_GetTS calm;
     on_GetAllStores := on_GetAllStores calm;
     on_pushBackup := on_pushBackup calm;
     on_GetRegion := fun w key =>
       if key_eqb key (kk ++ ["000"%byte])%list && (w <? 15)%nat
       then (None, None, None)
       else (None, Some leader1, None);
     on_backup := on_backup calm;
     on_ResolveLocks := on_ResolveLocks calm;
     on_Marshal := on_Marshal calm;
     on_WriteFile := None |}.

(** Every backup call meets a lock that lives for another [ms]. *)
Definition locked_for (ms : Z) : Script :=
  {| on_GetTS := on_GetTS calm;
     on_GetAllStores := on_GetAllStores calm;
     on_pushBackup := on_pushBackup calm;
     on_GetRegion := on_GetRegion calm;
     on_backup := fun _ _ _ => ([failed lock_conflict], None);
     on_ResolveLocks := fun _ _ => (ms, None);
     on_Marshal := on_Marshal calm;
     on_WriteFile := None |}.

(** One round in which worker 0 takes the first range, worker 1 the
    second (if any), everything is delivered, all workers return and the
    dispatcher closes respCh; the coordinator has not run yet. *)
Definition workers_finish : list Choice :=
  [Dispatcher; Dispatcher; Dispatcher;
   WorkerStep 0; WorkerStep 0; WorkerStep 0;
   WorkerStep 1; WorkerStep 1; WorkerStep 1;
   WorkerStep 0; WorkerStep 1; WorkerStep 2; WorkerStep 3;
   Dispatcher; Dispatcher].

(** The coordinator then takes from respCh until it finds it closed. *)
Definition drain : list Choice := [SelectResp; SelectResp; SelectResp].

(** Two rounds, the coordinator never looking at errCh. *)
Definition two_rounds : list Choice :=
  workers_finish ++ drain ++ workers_finish ++ drain.

(** The coordinator looks at errCh once the workers are done. *)
Definition notice_error : list Choice := workers_finish ++ [SelectErr].

(** Every backup call meets a lock; the first lock resolved lives for
    another 30 ms, the later ones for another 70 ms. *)
Definition locks_expiring : Script :=
  {| on_GetTS := on_GetTS calm;
     on_GetAllStores := on_GetAllStores calm;
     on_pushBackup := on_pushBackup calm;
     on_GetRegion := on_GetRegion calm;
     on_backup := fun _ _ _ => ([failed lock_conflict], None);
     on_ResolveLocks := fun w _ => (if (w <? 3)%nat then 30 else 70, None);
     on_Marshal := on_Marshal calm;
     on_WriteFile := None |}.

(** One round of two ranges that forward nothing: worker 0 takes the
    first range, returns from it, takes the second, returns from it and
    leaves its loop; the other workers leave theirs; the dispatcher
    closes respCh.  The coordinator has not run yet. *)
Definition lone_worker : list Choice :=
  [Dispatcher; Dispatcher; Dispatcher;
   WorkerStep 0; WorkerStep 0; WorkerStep 0; WorkerStep 0; WorkerStep 0;
   WorkerStep 1; WorkerStep 2; WorkerStep 3;
   Dispatcher].

(** Two such rounds, each followed by step 3, and a third one that has
    reached its end. *)
Definition third_round_end : list Choice :=
  lone_worker ++ [SelectResp] ++ lone_worker ++ [SelectResp] ++ lone_worker.

End Reference.

(** ** Further readings of the trace *)

Definition is_GetRegion (ev : Event) : bool :=
  match ev with EvGetRegion _ => true | _ => false end.

Definition is_SendBackup (ev : Event) : bool :=
  match ev with EvSendBackup _ _ => true | _ => false end.

(** How many lookups the placement driver was asked. *)
Definition lookups (tr : list Event) : nat :=
  List.length (filter is_GetRegion tr).

(** The total of the sleeps of the leader resolver, in ms. *)
Fixpoint sleep_total (tr : list Event) : Z :=
  match tr with
  | [] => 0
  | EvSleep ms :: tr' => ms + sleep_total tr'
  | _ :: tr' => sleep_total tr'
  end.

(** An event of the leader resolver working on the encoded [key]. *)
Definition resolver_event (key : Key) (ev : Event) : Prop :=
  match ev with
  | EvGetRegion k => k = key
  | EvSleep ms => 0 <= ms
  | _ => False
  end.

Definition lock_resolution (ev : Event) : Prop :=
  match ev with EvResolveLocks _ => True | _ => False end.

(** The lock a response reports, if it reports one. *)
Definition reported_lock (resp : BackupResponse) : option LockInfo :=
  match Error resp with
  | Some e =>
    match Detail e with
    | Some (Error_KvError v) => Locked v
    | _ => None
    end
  | None => None
  end.

Definition confirmed_response (resp : BackupResponse) : bool :=
  match Error resp with None => true | Some _ => false end.

(** The request handleFineGrained builds for a range (lines 316-323). *)
Definition range_request (bc : BackupClient) (backupTS : Z) (path : string)
    (rg : Range) : BackupRequest :=
  {| ClusterId := clusterID bc;
     req_StartKey := StartKey rg;
     req_EndKey := EndKey rg;
     StartVersion := backupTS;
     EndVersion := backupTS;
     req_Path := path |}.

(** ** Accounting for a round *)

Definition is_Sending (w : Worker) : bool :=
  match w with Sending _ _ _ => true | _ => false end.

(** Workers inside handleFineGrained, and workers that have returned. *)
Definition busy (ws : list Worker) : nat := List.length (filter is_Sending ws).
Definition returned (ws : list Worker) : nat := List.length (filter is_Done ws).

Definition is_BackoffMs (ev : Event) : bool :=
  match ev with EvBackoffMs _ => true | _ => false end.

(** Ranges of the current round that a worker has handled without
    error, and workers that have sent an error in it. *)
Definition handled (tr : list Event) : nat :=
  List.length (filter is_BackoffMs (this_round tr)).
Definition failures (tr : list Event) : nat :=
  List.length (sent_on_errCh (this_round tr)).

(** The incomplete ranges the current round started with. *)
Fixpoint current_ranges (tr : list Event) : list Range :=
  match tr with
  | [] => []
  | EvRound incomplete :: _ => incomplete
  | _ :: tr' => current_ranges tr'
  end.

(** The responses sent on respCh, newest first. *)
Fixpoint forwards (tr : list Event) : list BackupResponse :=
  match tr with
  | [] => []
  | EvRespCh resp :: tr' => resp :: forwards tr'
  | _ :: tr' => forwards tr'
  end.

(** The arguments of the calls of putOk, newest first. *)
Fixpoint puts (tr : list Event) : list (Key * Key * list File) :=
  match tr with
  | [] => []
  | EvPutOk startKey endKey files :: tr' => (startKey, endKey, files) :: puts tr'
  | _ :: tr' => puts tr'
  end.

(** What the coordinator puts into the ledger for a response. *)
Definition confirmation (resp : BackupResponse) : Key * Key * list File :=
  (resp_StartKey resp, resp_EndKey resp, resp_Files resp).

(** The ledger after the puts [ps] (newest first) on [rangeTree]. *)
Definition apply_puts {RangeTree} (L : Ledger RangeTree) (rangeTree : RangeTree)
    (ps : list (Key * Key * list File)) : RangeTree :=
  fold_right (fun p t => putOk L t (fst (fst p)) (snd (fst p)) (snd p))
    rangeTree ps.

(** A round that ended without a worker error handled all its ranges. *)
Definition round_closed (tr : list Event) : Prop :=
  failures tr = 0%nat -> handled tr = List.length (current_ranges tr).

(** Every round that was followed by another one was closed. *)
Fixpoint rounds_accounted (tr : list Event) : Prop :=
  match tr with
  | [] => True
  | EvRound _ :: tr' => round_closed tr' /\ rounds_accounted tr'
  | _ :: tr' => rounds_accounted tr'
  end.

(** An event of handleFineGrained working on [rg]. *)
Definition range_event (bc : BackupClient) (backupTS : Z) (path : string)
    (rg : Range) (ev : Event) : Prop :=
  match ev with
  | EvGetRegion _ | EvSleep _ | EvResolveLocks _ => True
  | EvSendBackup _ req => req = range_request bc backupTS path rg
  | _ => False
  end.

(** Every backup call is the request for one of the ranges its round
    started with. *)
Fixpoint requests_in_round (bc : BackupClient) (backupTS : Z) (path : string)
    (tr : list Event) : Prop :=
  match tr with
  | [] => True
  | EvSendBackup _ req :: tr' =>
    (exists rg, In rg (current_ranges tr') /\
                req = range_request bc backupTS path rg) /\
    requests_in_round bc backupTS path tr'
  | _ :: tr' => requests_in_round bc backupTS path tr'
  end.

Section Accounting.

Variables World RangeTree : Type.
Variable L : Ledger RangeTree.
Variable bc : BackupClient.
Variable backupTS : Z.
Variable path : string.

(** [rangeTree0] is the ledger fineGrainedBackup was given and [new] the
    events since it started. *)
Variable rangeTree0 : RangeTree.

Record Accounts (new : list Event) (r : Round World RangeTree) : Prop := {
  acc_tree : rangeTree r = apply_puts L rangeTree0 (puts new);
  acc_fifo : map confirmation (forwards new) =
             map confirmation (rev (respCh r)) ++ puts new;
  acc_workers : List.length (workers r) = 4%nat;
  acc_retry : (List.length (retry r) <= 4)%nat;
  acc_respCh : (List.length (respCh r) <= 4)%nat;
  acc_errCh : List.length (errCh r) = failures new;
  acc_failures : (failures new <= returned (workers r))%nat;
  acc_closed : retry_closed r = true -> to_send r = [];
  acc_resp_closed : respCh_closed r = true ->
                    retry_closed r = true /\ forallb is_Done (workers r) = true;
  acc_count : (List.length (to_send r) + List.length (retry r) + busy (workers r)
               + handled new + failures new
               = List.length (current_ranges new))%nat;
  acc_drained : (failures new < returned (workers r))%nat ->
                retry r = [] /\ retry_closed r = true;
  acc_incl : incl (retry r ++ to_send r) (current_ranges new);
  acc_rounds : rounds_accounted new;
  acc_requests : requests_in_round bc backupTS path new
}.

Definition Accounted (tr0 : list Event) (status : Status World RangeTree) : Prop :=
  match status with
  | Running r => exists new, trace (st r) = new ++ tr0 /\ Accounts new r
  | Returned err rangeTree s =>
    exists new,
      trace s = new ++ tr0 /\
      rangeTree = apply_puts L rangeTree0 (puts new) /\
      (exists pending,
          map confirmation (forwards new) = pending ++ puts new /\
          match err with None => pending = [] | Some _ => True end) /\
      (handled new + failures new <= List.length (current_ranges new))%nat /\
      match err with None => round_closed new | Some _ => True end /\
      rounds_accounted new /\
      requests_in_round bc backupTS path new
  | Fatal _ => True
  end.

End Accounting.

(** ** Readings of a whole invocation *)

(** The calls BackupRange makes before the retry loop. *)
Definition is_setup (ev : Event) : bool :=
  match ev with
  | EvGetTS | EvGetAllStores | EvPushBackup _ _ => true
  | _ => false
  end.

Definition is_CheckDupFiles (ev : Event) : bool :=
  match ev with EvCheckDupFiles _ => true | _ => false end.

(** The audit for duplicate files ran. *)
Definition audit_reached (tr : list Event) : bool := existsb is_CheckDupFiles tr.

(** A backup request, broadcast or per range, names the cluster [id]
    and the destination [path]. *)
Definition for_cluster (id : Z) (path : string) (ev : Event) : Prop :=
  match ev with
  | EvPushBackup req _ | EvSendBackup _ req =>
    ClusterId req = id /\ req_Path req = path
  | _ => True
  end.

(** The request BackupRange broadcasts (lines 76-83). *)
Definition broadcast_request (bc : BackupClient) (startKey endKey : Key)
    (backupTS : Z) (path : string) : BackupRequest :=
  {| ClusterId := clusterID bc;
     req_StartKey := startKey;
     req_EndKey := endKey;
     StartVersion := backupTS;
     EndVersion := backupTS;
     req_Path := path |}.

(** NewBackupClient (lines 38-49).  The client keeps the cluster ID the
    placement driver reports when it is created; its contexts and its
    handles on the backer and on the placement driver are the
    collaborators of [External].  The error it returns is always nil. *)
Definition NewBackupClient {World} (pd_GetClusterID : World -> Z) (w : World)
  : BackupClient * option error :=
  ({| clusterID := pd_GetClusterID w |}, None).

(** The response reports a region error. *)
Definition reports_region_error (resp : BackupResponse) : bool :=
  match Error resp with
  | Some e =>
    match Detail e with
    | Some (Error_RegionError _) => true
    | _ => false
    end
  | None => false
  end.

(** As [Reference.calm], but the node first answers every backup call
    with a region error and only then confirms the range. *)
Definition stale_leader : Reference.Script :=
  {| Reference.on_GetTS := Reference.on_GetTS Reference.calm;
     Reference.on_GetAllStores := Reference.on_GetAllStores Reference.calm;
     Reference.on_pushBackup := Reference.on_pushBackup Reference.calm;
     Reference.on_GetRegion := Reference.on_GetRegion Reference.calm;
     Reference.on_backup := fun _ _ req =>
       ([Reference.failed Reference.region_error;
         Reference.confirmed req Reference.file1], None);
     Reference.on_ResolveLocks := Reference.on_ResolveLocks Reference.calm;
     Reference.on_Marshal := Reference.on_Marshal Reference.calm;
     Reference.on_WriteFile := None |}.

(** ** How far a round is from its end *)

(** The ranges of the round no worker has taken yet. *)
Definition untaken {World RangeTree} (r : Round World RangeTree) : nat :=
  List.length (to_send r) + List.length (retry r).

(** The steps a worker still has to take on what it has taken: two for
    each response it has to send (the send, and the coordinator's
    receive), two to return from handleFineGrained and leave its loop,
    one to leave its loop when it is idle. *)
Definition work (w : Worker) : nat :=
  match w with
  | Idle => 1
  | Sending pending _ _ => 2 * List.length pending + 2
  | Done => 0
  end.

(** The steps left in the round when no further range is taken. *)
Definition round_work {World RangeTree} (r : Round World RangeTree) : nat :=
  list_sum (map work (workers r)) + List.length (respCh r)
  + List.length (to_send r)
  + Nat.b2n (negb (retry_closed r)) + Nat.b2n (negb (respCh_closed r)).

(** The coordinator can leave [selectLoop]: the round is over, or a
    worker's error waits in errCh. *)
Definition can_leave {World RangeTree} (r : Round World RangeTree) : Prop :=
  round_over r = true \/ errCh r <> [].

(** * Properties *)

Section Properties.

Variables World RangeTree : Type.
Variable E : External World RangeTree.
Variable L : Ledger RangeTree.

Local Abbreviation St := (St World).

(** ** The classifier *)

Lemma onBackupResponse_no_error bo resp (s : St) :
  Error resp = None ->
  onBackupResponse E bo resp s = (Some resp, 0, None, s).
Proof. intros H. unfold onBackupResponse. rewrite H. reflexivity. Qed.

(** The classifier hands back a response only when it carries no error,
    and then it is the response it was given. *)
Lemma onBackupResponse_response bo resp (s : St) response backoffMs err s' :
  onBackupResponse E bo resp s = (Some response, backoffMs, err, s') ->
  response = resp /\ Error resp = None /\ backoffMs = 0 /\ err = None /\ s' = s.
Proof.
  unfold onBackupResponse, bind, ret, lockResolver_ResolveLocks, call.
  destruct (Error resp) as [e|] eqn:He.
  - destruct (Detail e) as [[c|v|re]|]; try discriminate.
    + destruct (Locked v); try discriminate.
      destruct (ResolveLocks E bo _ (world s)) as [[ms [e1|]] w]; discriminate.
    + destruct (negb (ignorable re)); discriminate.
  - intros H. inversion H. subst. auto.
Qed.

(** C3. For a response that carries a key-lock conflict the classifier
    calls the lock resolver on the reported lock, whatever the resolver
    answers.  When the resolver reports a remaining lifetime above 0 (and
    no error) the result is no response, that lifetime as backoff and no
    error; when it reports 0 the result is no response, backoff 0 and no
    error. *)
Theorem onBackupResponse_key_locked bo resp e v lockErr (s : St) :
  Error resp = Some e ->
  Detail e = Some (Error_KvError v) ->
  Locked v = Some lockErr ->
  let '(msBeforeExpired, err1, w) :=
    ResolveLocks E bo [NewLock lockErr] (world s) in
  let s' := {| world := w;
               trace := EvResolveLocks [NewLock lockErr] :: trace s |} in
  snd (onBackupResponse E bo resp s) = s' /\
  (err1 = None -> 0 < msBeforeExpired ->
   onBackupResponse E bo resp s = (None, msBeforeExpired, None, s')) /\
  (err1 = None -> msBeforeExpired = 0 ->
   onBackupResponse E bo resp s = (None, 0, None, s')).
Proof.
  intros He Hd Hl.
  destruct (ResolveLocks E bo [NewLock lockErr] (world s)) as [[ms e1] w] eqn:Hr.
  cbv zeta.
  unfold onBackupResponse, bind, ret, lockResolver_ResolveLocks, call.
  rewrite He, Hd, Hl, Hr.
  split; [destruct e1; reflexivity|].
  split; intros -> Hms.
  - apply Z.ltb_lt in Hms. rewrite Hms. reflexivity.
  - subst ms. reflexivity.
Qed.

(** C4. For a response that carries a region error the classifier
    returns the fixed backoff of 1000 ms, which is not zero, and no error
    exactly when one of NotLeader, EpochNotMatch, RegionNotFound,
    StaleCommand, ServerIsBusy, StoreNotMatch is set; for every other
    region error it returns an error. *)
Theorem onBackupResponse_region_error bo resp e regionErr (s : St) :
  Error resp = Some e ->
  Detail e = Some (Error_RegionError regionErr) ->
  1000 <> 0 /\
  onBackupResponse E bo resp s =
    if NotLeader regionErr || EpochNotMatch regionErr
       || RegionNotFound regionErr || StaleCommand regionErr
       || ServerIsBusy regionErr || StoreNotMatch regionErr
    then (None, 1000, None, s)
    else (None, 0, Some (Errorf_onBackupResponse (Error_RegionError regionErr)), s).
Proof.
  intros He Hd. split; [lia|].
  unfold onBackupResponse, ret, ignorable. rewrite He, Hd.
  destruct regionErr as [m nl rnf knr enm sib sc snm ret]; simpl.
  destruct nl, enm, rnf, sc, sib, snm; reflexivity.
Qed.

(** A cluster-identity mismatch and an error without a known detail are
    fatal: no response, no backoff, an error made from the reported one. *)
Lemma onBackupResponse_fatal bo resp e (s : St) :
  Error resp = Some e ->
  (exists c, Detail e = Some (Error_ClusterIdError c)) \/ Detail e = None ->
  onBackupResponse E bo resp s = (None, 0, Some (Errorf_resp_Error e), s).
Proof.
  intros He [[c Hd]|Hd]; unfold onBackupResponse, ret; rewrite He, Hd; reflexivity.
Qed.

(** ** The leader resolver *)

Section Resolver.

Variable key : Key.
Variable s0 : St.

Let state_after (n : nat) : St :=
  {| world := world_after E key n (world s0);
     trace := failed_lookups key n ++ trace s0 |}.

Lemma findRegionLeader_loop_miss k n :
  found (lookup E key n (world s0)) = None ->
  findRegionLeader_loop E (S k) (Z.of_nat n) key (state_after n) =
  findRegionLeader_loop E k (Z.of_nat (S n)) key (state_after (S n)).
Proof.
  unfold lookup. intros Hf.
  cbn [findRegionLeader_loop]. unfold bind, GetRegion, Sleep, call, state_after.
  cbn [world trace world_after failed_lookups app].
  destruct (pd_GetRegion E key (world_after E key n (world s0)))
    as [[[rg leader] e] w] eqn:Hr.
  cbn [fst snd found] in *.
  replace (Z.of_nat n + 1) with (Z.of_nat (S n)) by lia.
  destruct e as [e|]; [destruct leader; reflexivity|].
  destruct leader as [leader|]; [discriminate|reflexivity].
Qed.

Lemma findRegionLeader_loop_hit k n leader :
  found (lookup E key n (world s0)) = Some leader ->
  findRegionLeader_loop E (S k) (Z.of_nat n) key (state_after n) =
  (inl leader,
   {| world := snd (pd_GetRegion E key (world_after E key n (world s0)));
      trace := EvGetRegion key :: failed_lookups key n ++ trace s0 |}).
Proof.
  unfold lookup. intros Hf.
  cbn [findRegionLeader_loop]. unfold bind, GetRegion, call, state_after, ret.
  cbn [world trace].
  destruct (pd_GetRegion E key (world_after E key n (world s0)))
    as [[[rg l] e] w] eqn:Hr.
  cbn [fst snd found] in *.
  destruct e as [e|]; [destruct l; discriminate|].
  destruct l as [l|]; [|discriminate].
  inversion Hf; subst. reflexivity.
Qed.

Lemma findRegionLeader_loop_found j : forall k n leader,
  (j < k)%nat ->
  (forall i, (n <= i < n + j)%nat -> found (lookup E key i (world s0)) = None) ->
  found (lookup E key (n + j) (world s0)) = Some leader ->
  findRegionLeader_loop E k (Z.of_nat n) key (state_after n) =
  (inl leader,
   {| world := snd (pd_GetRegion E key (world_after E key (n + j) (world s0)));
      trace := EvGetRegion key :: failed_lookups key (n + j) ++ trace s0 |}).
Proof.
  induction j as [|j IH]; intros k n leader Hk Hmiss Hhit.
  - destruct k as [|k]; [lia|].
    rewrite Nat.add_0_r in *. apply findRegionLeader_loop_hit; assumption.
  - destruct k as [|k]; [lia|].
    rewrite findRegionLeader_loop_miss by (apply Hmiss; lia).
    replace (n + S j)%nat with (S n + j)%nat in * by lia.
    apply IH; [lia| |assumption].
    intros i Hi. apply Hmiss. lia.
Qed.

Lemma findRegionLeader_loop_exhausted k : forall n,
  (forall i, (n <= i < n + k)%nat -> found (lookup E key i (world s0)) = None) ->
  findRegionLeader_loop E k (Z.of_nat n) key (state_after n) =
  (inr (Errorf_can_not_find_region key), state_after (n + k)).
Proof.
  induction k as [|k IH]; intros n Hmiss.
  - rewrite Nat.add_0_r. reflexivity.
  - rewrite findRegionLeader_loop_miss by (apply Hmiss; lia).
    rewrite IH.
    + replace (S n + k)%nat with (n + S k)%nat by lia. reflexivity.
    + intros i Hi. apply Hmiss. lia.
Qed.

End Resolver.

(** C7. The resolver encodes the key first, and every lookup is made on
    the encoded key.  It makes at most 5 lookups, lookup [i] (from 0)
    being followed by a sleep of [100 * i] ms when it finds no leader.
    The first lookup that finds a leader ends the call with that leader;
    when none of the 5 does, the call ends with the "can not find region"
    error. *)
Theorem findRegionLeader_bounded_retry key (s : St) :
  let enc := codec_EncodeBytes E [] key in
  (forall n leader,
      (n < 5)%nat ->
      (forall i, (i < n)%nat -> found (lookup E enc i (world s)) = None) ->
      found (lookup E enc n (world s)) = Some leader ->
      findRegionLeader E key s =
      (inl leader,
       {| world := snd (pd_GetRegion E enc (world_after E enc n (world s)));
          trace := EvGetRegion enc :: failed_lookups enc n ++ trace s |})) /\
  ((forall i, (i < 5)%nat -> found (lookup E enc i (world s)) = None) ->
   findRegionLeader E key s =
   (inr (Errorf_can_not_find_region enc),
    {| world := world_after E enc 5 (world s);
       trace := failed_lookups enc 5 ++ trace s |})).
Proof.
  intros enc. unfold findRegionLeader. fold enc.
  assert (Hs : s = {| world := world_after E enc 0 (world s);
                      trace := failed_lookups enc 0 ++ trace s |})
    by (destruct s; reflexivity).
  split.
  - intros n leader Hn Hmiss Hhit.
    rewrite Hs at 1.
    apply (@findRegionLeader_loop_found enc s n 5%nat 0%nat leader);
      [assumption| |assumption].
    intros i Hi. apply Hmiss. lia.
  - intros Hmiss. rewrite Hs at 1.
    apply (@findRegionLeader_loop_exhausted enc s 5%nat 0%nat).
    intros i Hi. apply Hmiss. lia.
Qed.

(** ** Traces *)

Lemma extends_refl A tr : extends A tr tr.
Proof. exists []. split; [reflexivity|constructor]. Qed.

Lemma extends_trans A tr1 tr2 tr3 :
  extends A tr1 tr2 -> extends A tr2 tr3 -> extends A tr1 tr3.
Proof.
  intros [n1 [-> H1]] [n2 [-> H2]]. exists (n2 ++ n1).
  split; [apply app_assoc|apply Forall_app; auto].
Qed.

Lemma extends_cons (A : Event -> Prop) ev tr : A ev -> extends A tr (ev :: tr).
Proof. intros H. exists [ev]. split; [reflexivity|repeat constructor; exact H]. Qed.

Lemma extends_weaken (A B : Event -> Prop) tr tr' :
  (forall ev, A ev -> B ev) -> extends A tr tr' -> extends B tr tr'.
Proof.
  intros HAB [new [-> H]]. exists new. split; [reflexivity|].
  eapply Forall_impl; eauto.
Qed.

Lemma extends_Forall (A : Event -> Prop) tr tr' :
  extends A tr tr' -> Forall A tr -> Forall A tr'.
Proof. intros [new [-> H]] Htr. apply Forall_app; auto. Qed.

Lemma worker_event_fineGrained bc backupTS path ev :
  worker_event bc backupTS path ev -> fineGrained_event bc backupTS path ev.
Proof. destruct ev; simpl; tauto. Qed.

(** ** The worker action *)

Section WorkerAction.

Variable bc : BackupClient.
Variable backupTS : Z.
Variable path : string.

Let A := worker_event bc backupTS path.

Lemma onBackupResponse_extends bo resp (s : St) :
  extends A (trace s) (trace (snd (onBackupResponse E bo resp s))).
Proof.
  unfold onBackupResponse, bind, ret, lockResolver_ResolveLocks, call.
  destruct (Error resp) as [e|]; [|apply extends_refl].
  destruct (Detail e) as [[c|v|re]|]; try apply extends_refl.
  - destruct (Locked v); [|apply extends_refl].
    destruct (ResolveLocks E bo _ (world s)) as [[ms [e1|]] w]; cbn [snd trace];
      apply extends_cons; exact I.
  - destruct (negb (ignorable re)); apply extends_refl.
Qed.

Lemma findRegionLeader_loop_extends n : forall i key (s : St),
  extends A (trace s) (trace (snd (findRegionLeader_loop E n i key s))).
Proof.
  induction n as [|n IH]; intros i key s; [apply extends_refl|].
  cbn [findRegionLeader_loop]. unfold bind, GetRegion, Sleep, call.
  destruct (pd_GetRegion E key (world s)) as [[[rg leader] e] w].
  destruct e as [e|].
  - destruct leader; cbn [world trace];
      (eapply extends_trans; [|apply IH]); cbn [trace];
      (eapply extends_trans; apply extends_cons; exact I).
  - destruct leader as [leader|]; cbn [world trace].
    + unfold ret. cbn [snd trace]. apply extends_cons. exact I.
    + eapply extends_trans; [|apply IH]. cbn [trace].
      eapply extends_trans; apply extends_cons; exact I.
Qed.

Lemma respFn_spec bo resp c (s : St) :
  Forall no_Error (sent c) ->
  let '(err, c', s') := respFn E bo resp c s in
  extends A (trace s) (trace s') /\ Forall no_Error (sent c').
Proof.
  intros Hc. unfold respFn, bind.
  pose proof (onBackupResponse_extends bo resp s) as Hx.
  destruct (onBackupResponse E bo resp s) as [[[response ms] e] s'] eqn:Ho.
  cbn [snd] in Hx.
  destruct e as [e|]; unfold ret; [auto|].
  split; [assumption|]. cbn [sent].
  destruct response as [response|]; [|assumption].
  apply onBackupResponse_response in Ho. destruct Ho as [-> [Hn _]].
  apply Forall_app. split; [assumption|]. repeat constructor. exact Hn.
Qed.

Lemma SendBackup_recv_spec bo resps : forall fin c (s : St),
  Forall no_Error (sent c) ->
  let '(err, c', s') := SendBackup_recv (respFn E bo) resps fin c s in
  extends A (trace s) (trace s') /\ Forall no_Error (sent c').
Proof.
  induction resps as [|resp rest IH]; intros fin c s Hc.
  - cbn. split; [apply extends_refl|assumption].
  - cbn [SendBackup_recv]. unfold bind.
    pose proof (respFn_spec bo resp c s Hc) as Hr.
    destruct (respFn E bo resp c s) as [[e c1] s1].
    destruct Hr as [Hx1 Hc1].
    destruct e as [e|]; [unfold ret; auto|].
    specialize (IH fin c1 s1 Hc1).
    destruct (SendBackup_recv (respFn E bo) rest fin c1 s1) as [[e2 c2] s2].
    destruct IH as [Hx2 Hc2]. split; [|assumption].
    eapply extends_trans; eassumption.
Qed.

(** What handleFineGrained sends on respCh carries no error, and the
    calls it makes are lookups, sleeps, lock resolutions and backup calls
    at the timestamp it was given. *)
Lemma handleFineGrained_spec bo rg (s : St) :
  let '(sent, backoffMs, err, s') :=
    handleFineGrained E bc bo rg backupTS path s in
  extends A (trace s) (trace s') /\ Forall no_Error sent.
Proof.
  unfold handleFineGrained, bind, findRegionLeader.
  pose proof (findRegionLeader_loop_extends 5 0
                (codec_EncodeBytes E [] (StartKey rg)) s) as Hl.
  destruct (findRegionLeader_loop E 5 0 _ s) as [[leader|pderr] s1];
    cbn [snd] in Hl.
  2:{ unfold ret. split; [assumption|constructor]. }
  unfold SendBackup, bind, call.
  destruct (backup_stream E (StoreId leader) _ (world s1)) as [stream w2].
  match goal with
  | |- context [SendBackup_recv ?f ?rs ?fin ?c ?s2] =>
    pose proof (SendBackup_recv_spec bo rs fin c s2) as Hs;
    destruct (SendBackup_recv f rs fin c s2) as [[e c'] s3]
  end.
  destruct Hs as [Hx Hc]; [constructor|].
  assert (Hx' : extends A (trace s) (trace s3)).
  { eapply extends_trans; [exact Hl|]. eapply extends_trans; [|exact Hx].
    cbn [trace]. apply extends_cons. cbn. auto. }
  destruct e; unfold ret; split; assumption.
Qed.

(** A failed leader resolution ends handleFineGrained at once: nothing
    is sent, the backoff is 0 and the error is the resolver's. *)
Lemma handleFineGrained_no_leader bo rg (s : St) pderr s' :
  findRegionLeader E (StartKey rg) s = (inr pderr, s') ->
  handleFineGrained E bc bo rg backupTS path s = ([], 0, Some pderr, s').
Proof. intros H. unfold handleFineGrained, bind. rewrite H. reflexivity. Qed.

(** An error from the callback ends the backup call with that error. *)
Lemma SendBackup_recv_stops {S} (f : BackupResponse -> S -> M World (option error * S))
    resp rest fin c (s : St) err c' s' :
  f resp c s = (Some err, c', s') ->
  SendBackup_recv f (resp :: rest) fin c s = (Some err, c', s').
Proof. intros H. cbn [SendBackup_recv]. unfold bind. rewrite H. reflexivity. Qed.

End WorkerAction.

(** ** The rounds of fineGrainedBackup *)

Lemma max_backoff_nonneg tr : 0 <= max_backoff tr.
Proof. induction tr as [|[] tr IH]; cbn; lia. Qed.

Lemma this_round_worker bc backupTS path new tr :
  Forall (worker_event bc backupTS path) new ->
  this_round (new ++ tr) = new ++ this_round tr.
Proof.
  induction 1 as [|ev new Hev _ IH]; [reflexivity|].
  destruct ev; cbn in *; try contradiction; rewrite IH; reflexivity.
Qed.

Lemma max_backoff_worker bc backupTS path new tr :
  Forall (worker_event bc backupTS path) new ->
  max_backoff (new ++ tr) = max_backoff tr.
Proof.
  induction 1 as [|ev new Hev _ IH]; [reflexivity|].
  destruct ev; cbn in *; try contradiction; exact IH.
Qed.

Lemma slept_worker bc backupTS path new tr :
  Forall (worker_event bc backupTS path) new ->
  slept (new ++ tr) = slept tr.
Proof.
  induction 1 as [|ev new Hev _ IH]; [reflexivity|].
  destruct ev; cbn in *; try contradiction; exact IH.
Qed.

Lemma In_set_worker w i w' ws :
  In w (set_worker i w' ws) -> w = w' \/ In w ws.
Proof.
  revert i. induction ws as [|w0 ws IH]; intros i H; [destruct i; contradiction|].
  destruct i as [|i]; cbn in H.
  - destruct H as [<-|H]; [left; reflexivity|right; right; exact H].
  - destruct H as [<-|H]; [right; left; reflexivity|].
    apply IH in H. destruct H; [left|right; right]; assumption.
Qed.

Lemma nth_error_In_worker (ws : list Worker) i w :
  nth_error ws i = Some w -> In w ws.
Proof. apply nth_error_In. Qed.

Section Rounds.

Variable bc : BackupClient.
Variables startKey endKey : Key.
Variable backupTS : Z.
Variable path : string.
Variable tr0 : list Event.

Local Abbreviation Inv := (@Inv World RangeTree bc backupTS path tr0).
Local Abbreviation Inv_status :=
  (@Inv_status World RangeTree L bc startKey endKey backupTS path tr0).
Local Abbreviation FG := (fineGrained_event bc backupTS path).

Lemma dispatcher_step_inv r : Inv r -> Inv (dispatcher_step r).
Proof.
  intros [H1 H2 H3 H4 H5 H6 H7 H8]. unfold dispatcher_step.
  destruct (to_send r);
    [destruct (negb (retry_closed r)); [|destruct (forallb is_Done (workers r))]
    |destruct (List.length (retry r) <? 4)%nat];
    constructor; assumption.
Qed.

Lemma worker_step_inv i r : Inv r -> Inv (worker_step E bc backupTS path i r).
Proof.
  intros HI. pose proof HI as [H1 H2 H3 H4 H5 H6 H7 H8]. unfold worker_step.
  destruct (nth_error (workers r) i) as [[|pending ms err|]|] eqn:Hw;
    try exact HI.
  - (* Idle *)
    destruct (retry r) as [|rg rest].
    + destruct (retry_closed r); [|exact HI].
      constructor; cbn; try assumption.
      intros p m e Hin. apply In_set_worker in Hin.
      destruct Hin as [Hin|Hin]; [discriminate|eauto].
    + pose proof (handleFineGrained_spec bc backupTS path (Fork (bo r)) rg (st r)) as Hh.
      destruct (handleFineGrained E bc (Fork (bo r)) rg backupTS path (st r))
        as [[[sent ms] err] s'].
      destruct Hh as [[new [Hnew HA]] Hsent].
      constructor; cbn.
      * eapply extends_trans; [exact H1|]. exists new. split; [assumption|].
        eapply Forall_impl; [|exact HA]. apply worker_event_fineGrained.
      * assumption.
      * intros p m e Hin. apply In_set_worker in Hin.
        destruct Hin as [Hin|Hin]; [inversion Hin; subst; assumption|eauto].
      * rewrite Hnew, (this_round_worker _ HA), (max_backoff_worker _ HA).
        assumption.
      * assumption.
      * rewrite Hnew, (slept_worker _ HA). assumption.
      * assumption.
      * intros e Hin. rewrite Hnew, (this_round_worker _ HA).
        apply in_or_app. right. auto.
  - (* Sending *)
    apply nth_error_In in Hw.
    destruct pending as [|response pending].
    + destruct err as [err|].
      * destruct (List.length (errCh r) <? 4)%nat; [|exact HI].
        constructor; cbn; try assumption.
        -- eapply extends_trans; [exact H1|]. apply extends_cons. exact I.
        -- intros p m e Hin. apply In_set_worker in Hin.
           destruct Hin as [Hin|Hin]; [discriminate|eauto].
        -- intros e Hin. apply in_app_or in Hin.
           destruct Hin as [Hin|[<-|[]]]; [right; auto|left; reflexivity].
      * constructor; cbn; try assumption.
        -- eapply extends_trans; [exact H1|]. apply extends_cons. exact I.
        -- intros p m e Hin. apply In_set_worker in Hin.
           destruct Hin as [Hin|Hin]; [discriminate|eauto].
        -- rewrite H4. pose proof (max_backoff_nonneg (this_round (trace (st r)))).
           destruct (Z.eqb_spec ms 0); [lia|].
           destruct (Z.ltb_spec (max_backoff (this_round (trace (st r)))) ms); lia.
        -- intros e Hin. right. auto.
    + destruct (List.length (respCh r) <? 4)%nat; [|exact HI].
      pose proof (H3 _ _ _ Hw) as Hp. inversion Hp as [|x l Hx Hl]; subst.
      constructor; cbn; try assumption.
      * eapply extends_trans; [exact H1|]. apply extends_cons. exact Hx.
      * apply Forall_app. split; [assumption|repeat constructor; assumption].
      * intros p m e Hin. apply In_set_worker in Hin.
        destruct Hin as [Hin|Hin]; [inversion Hin; subst; assumption|eauto].
      * intros e Hin. right. auto.
Qed.

Lemma loop_head_inv bo rangeTree (s : St) :
  extends FG tr0 (trace s) ->
  maxSleep bo = backupFineGrainedMaxBackoff ->
  slept (trace s) = slept tr0 + totalSleep bo ->
  0 <= totalSleep bo <= backupFineGrainedMaxBackoff ->
  Inv_status (loop_head L startKey endKey bo rangeTree s).
Proof.
  intros H1 H5 H6 H7. unfold loop_head.
  destruct (getIncompleteRange L rangeTree startKey endKey) eqn:Hinc.
  - cbn. split; [assumption|]. split; [lia|assumption].
  - cbn. constructor; cbn; try assumption; try constructor.
    + eapply extends_trans; [exact H1|]. apply extends_cons. exact I.
    + intros p m e Hin. repeat (destruct Hin as [Hin|Hin]; [discriminate|]).
      contradiction.
    + contradiction.
Qed.

Lemma step3_inv r : Inv r -> Inv_status (step3 E L startKey endKey r).
Proof.
  intros [H1 H2 H3 H4 H5 H6 H7 H8]. unfold step3.
  destruct (Z.eqb_spec (max_ms r) 0) as [Hz|Hz].
  - apply loop_head_inv; assumption.
  - unfold BackoffWithMaxSleep, bind, call, ret. rewrite H5.
    pose proof (max_backoff_nonneg (this_round (trace (st r)))) as Hn.
    destruct (Z.ltb_spec backupFineGrainedMaxBackoff
                (totalSleep (bo r) + max_ms r)) as [Hlt|Hle].
    + cbn. split; [assumption|]. split; [lia|].
      right. rewrite <- H4. repeat split; [assumption|lia].
    + apply loop_head_inv; cbn; try assumption; try lia.
      eapply extends_trans; [exact H1|]. apply extends_cons. exact I.
Qed.

Lemma select_err_inv r : Inv r -> Inv_status (select_err r).
Proof.
  intros HI. pose proof HI as [H1 H2 H3 H4 H5 H6 H7 H8]. unfold select_err.
  destruct (errCh r) as [|err rest] eqn:He; [exact HI|].
  cbn. split; [assumption|]. split; [lia|].
  left. apply H8. left. reflexivity.
Qed.

Lemma select_resp_inv r : Inv r -> Inv_status (select_resp E L startKey endKey r).
Proof.
  intros HI. pose proof HI as [H1 H2 H3 H4 H5 H6 H7 H8]. unfold select_resp.
  destruct (respCh r) as [|resp rest] eqn:Hr.
  - destruct (respCh_closed r); [apply step3_inv; assumption|exact HI].
  - inversion H2 as [|x l Hx Hl]; subst. unfold no_Error in Hx. rewrite Hx.
    constructor; cbn; try assumption.
    + eapply extends_trans; [exact H1|]. apply extends_cons. exact I.
    + intros e Hin. right. auto.
Qed.

(** An error waiting in errCh is what the function returns when the
    select takes that case. *)
Lemma select_err_returns (r : Round World RangeTree) err rest :
  errCh r = err :: rest ->
  select_err r = Returned (Some err) (rangeTree r) (st r).
Proof. intros H. unfold select_err. rewrite H. reflexivity. Qed.

Lemma step_inv c r : Inv r -> Inv_status (step E L bc startKey endKey backupTS path c r).
Proof.
  intros HI. destruct c; cbn.
  - apply dispatcher_step_inv; assumption.
  - apply worker_step_inv; assumption.
  - apply select_err_inv; assumption.
  - apply select_resp_inv; assumption.
Qed.

Lemma run_inv sched : forall status,
  Inv_status status ->
  Inv_status (run E L bc startKey endKey backupTS path sched status).
Proof.
  induction sched as [|c sched IH]; intros status HI; [destruct status; exact HI|].
  destruct status as [r| |]; cbn; try exact HI.
  apply IH. apply step_inv. exact HI.
Qed.

Lemma backoff_discipline_worker new tr :
  Forall (worker_event bc backupTS path) new ->
  backoff_discipline tr -> backoff_discipline (new ++ tr).
Proof.
  induction 1 as [|ev new Hev _ IH]; intros Htr; [exact Htr|].
  destruct ev; cbn in *; try contradiction; auto.
Qed.

Lemma loop_head_disciplined bo rangeTree (s : St) :
  backoff_discipline (trace s) ->
  match trace s with
  | EvBackoff _ _ :: _ => True
  | _ => max_backoff (this_round (trace s)) = 0
  end ->
  disciplined (loop_head L startKey endKey bo rangeTree s).
Proof.
  intros Hd Hm. unfold loop_head.
  destruct (getIncompleteRange L rangeTree startKey endKey); cbn; auto.
Qed.

Lemma step_disciplined c r :
  Inv r -> backoff_discipline (trace (st r)) ->
  disciplined (step E L bc startKey endKey backupTS path c r).
Proof.
  intros HI Hd. pose proof HI as [H1 H2 H3 H4 H5 H6 H7 H8].
  destruct c as [|i| |]; cbn [step disciplined].
  - unfold dispatcher_step.
    destruct (to_send r);
      [destruct (negb (retry_closed r)); [|destruct (forallb is_Done (workers r))]
      |destruct (List.length (retry r) <? 4)%nat]; exact Hd.
  - unfold worker_step.
    destruct (nth_error (workers r) i) as [[|pending ms err|]|]; try exact Hd.
    + destruct (retry r) as [|rg rest].
      * destruct (retry_closed r); exact Hd.
      * pose proof (handleFineGrained_spec bc backupTS path (Fork (bo r)) rg (st r)) as Hh.
        destruct (handleFineGrained E bc (Fork (bo r)) rg backupTS path (st r))
          as [[[sent ms] err] s'].
        destruct Hh as [[new [Hnew HA]] _]. cbn [st]. rewrite Hnew.
        apply backoff_discipline_worker; assumption.
    + destruct pending as [|response pending].
      * destruct err as [err|]; [destruct (List.length (errCh r) <? 4)%nat|];
          exact Hd.
      * destruct (List.length (respCh r) <? 4)%nat; exact Hd.
  - unfold select_err. destruct (errCh r); exact Hd.
  - unfold select_resp. destruct (respCh r) as [|resp rest].
    + destruct (respCh_closed r); [|exact Hd].
      unfold step3. destruct (Z.eqb_spec (max_ms r) 0) as [Hz|Hz].
      * apply loop_head_disciplined; [exact Hd|].
        rewrite <- H4, Hz. destruct (trace (st r)) as [|[] ?]; auto.
      * unfold BackoffWithMaxSleep, bind, call, ret.
        destruct (maxSleep (bo r) <? totalSleep (bo r) + max_ms r); [exact Hd|].
        apply loop_head_disciplined; cbn [trace backoff_discipline]; auto.
    + destruct (Error resp); [exact I|exact Hd].
Qed.

Lemma run_disciplined sched : forall status,
  Inv_status status -> disciplined status ->
  disciplined (run E L bc startKey endKey backupTS path sched status).
Proof.
  induction sched as [|c sched IH]; intros status HI Hd;
    [destruct status; exact Hd|].
  destruct status as [r| |]; cbn [run]; try exact Hd.
  apply IH; [apply step_inv; exact HI|apply step_disciplined; assumption].
Qed.

End Rounds.

Lemma fineGrainedBackup_inv bc startKey endKey backupTS path sched rangeTree (s : St) :
  Inv_status L bc startKey endKey backupTS path (trace s)
    (fineGrainedBackup E L bc startKey endKey backupTS path sched rangeTree s).
Proof.
  unfold fineGrainedBackup. apply run_inv. apply loop_head_inv; cbn.
  - apply extends_refl.
  - reflexivity.
  - lia.
  - unfold backupFineGrainedMaxBackoff. lia.
Qed.

Lemma fineGrainedBackup_disciplined bc startKey endKey backupTS path sched
    rangeTree (w : World) :
  disciplined
    (fineGrainedBackup E L bc startKey endKey backupTS path sched rangeTree (init w)).
Proof.
  unfold fineGrainedBackup.
  apply run_disciplined with (tr0 := @nil Event).
  - apply loop_head_inv; cbn.
    + apply extends_refl.
    + reflexivity.
    + lia.
    + unfold backupFineGrainedMaxBackoff. lia.
  - apply loop_head_disciplined; cbn; auto.
Qed.

Lemma fineGrained_event_forwarded bc backupTS path ev :
  fineGrained_event bc backupTS path ev -> forwarded_ok ev.
Proof. destruct ev; cbn; auto. Qed.

(** C9. Whatever the order in which the goroutines run and whatever the
    collaborators answer, every response sent on respCh during
    fineGrainedBackup carries no error, the responses waiting in respCh
    carry none, and the [log.Fatal] branch of the coordinator is never
    taken. *)
Theorem forwarded_responses_carry_no_error
    bc startKey endKey backupTS path sched rangeTree (s : St) :
  match fineGrainedBackup E L bc startKey endKey backupTS path sched rangeTree s with
  | Running r =>
    extends forwarded_ok (trace s) (trace (st r)) /\ Forall no_Error (respCh r)
  | Returned _ _ s' => extends forwarded_ok (trace s) (trace s')
  | Fatal _ => False
  end.
Proof.
  pose proof (fineGrainedBackup_inv bc startKey endKey backupTS path sched rangeTree s) as H.
  destruct (fineGrainedBackup E L bc startKey endKey backupTS path sched rangeTree s)
    as [r|err tree s'|s']; cbn in H.
  - destruct H as [H1 H2 _ _ _ _ _ _]. split; [|assumption].
    eapply extends_weaken; [|exact H1]. apply fineGrained_event_forwarded.
  - destruct H as [H1 _].
    eapply extends_weaken; [|exact H1]. apply fineGrained_event_forwarded.
  - exact H.
Qed.


Lemma run_final sched (status : Status World RangeTree) bc startKey endKey
    backupTS path :
  (forall r, status <> Running r) ->
  run E L bc startKey endKey backupTS path sched status = status.
Proof.
  intros H. destruct sched; [reflexivity|].
  destruct status; [exfalso; eapply H; reflexivity|reflexivity|reflexivity].
Qed.

Lemma run_app bc startKey endKey backupTS path sched more : forall status,
  run E L bc startKey endKey backupTS path (sched ++ more) status =
  run E L bc startKey endKey backupTS path more
    (run E L bc startKey endKey backupTS path sched status).
Proof.
  induction sched as [|c sched IH]; intros status; [reflexivity|].
  destruct status as [r|err tree s|s]; cbn [app run].
  - apply IH.
  - symmetry. apply run_final. discriminate.
  - symmetry. apply run_final. discriminate.
Qed.

(** C6. Take any run of fineGrainedBackup, in any order of the
    goroutines, that has reached the end of a round (respCh closed and
    empty), and let the coordinator move.  The value it reads from max.ms
    is the largest backoff a worker got back in that round, and its
    backoffer has the ceiling 80000 ms and has slept what the run has
    slept so far.  If no backoff was recorded the run goes on at the head
    of the loop on the same state: the next round starts at once.  If one
    was recorded and the total stays within 80000 ms, the run sleeps for
    exactly that maximum, once, and then goes on at the head of the loop.
    If the total would exceed 80000 ms, the run has returned the timeout
    error, without sleeping.  At every point of every run the total slept
    since the start is within 80000 ms, and over a whole invocation every
    sleep of the coordinator lasts the largest backoff recorded in the
    round before it, and a round is followed by such a sleep exactly when
    a backoff other than 0 was recorded in it. *)
Theorem round_backoff_bounded
    bc startKey endKey backupTS path sched (ledger : RangeTree) (s : St) :
  (forall r : Round World RangeTree,
     fineGrainedBackup E L bc startKey endKey backupTS path sched ledger s =
       Running r ->
     round_over r = true ->
     let ms := max_backoff (this_round (trace (st r))) in
     let total := slept (trace (st r)) - slept (trace s) in
     let next :=
       fineGrainedBackup E L bc startKey endKey backupTS path
         (sched ++ [SelectResp]) ledger s in
     max_ms r = ms /\
     bo r = {| maxSleep := 80000; totalSleep := total |} /\
     (ms = 0 ->
      next = loop_head L startKey endKey (bo r) (rangeTree r) (st r)) /\
     (ms <> 0 -> total + ms <= 80000 ->
      next = loop_head L startKey endKey
               {| maxSleep := 80000; totalSleep := total + ms |}
               (rangeTree r)
               {| world := time_Sleep E ms (world (st r));
                  trace := EvBackoff 2 ms :: trace (st r) |}) /\
     (ms <> 0 -> 80000 < total + ms ->
      next = Returned (Some (Trace (Err_maxSleep_exceeded 2 80000)))
               (rangeTree r) (st r))) /\
  match fineGrainedBackup E L bc startKey endKey backupTS path sched ledger s with
  | Running r =>
    max_ms r = max_backoff (this_round (trace (st r))) /\
    maxSleep (bo r) = 80000 /\
    slept (trace (st r)) - slept (trace s) = totalSleep (bo r) /\
    0 <= totalSleep (bo r) <= 80000
  | Returned _ _ s' => 0 <= slept (trace s') - slept (trace s) <= 80000
  | Fatal _ => False
  end /\
  (forall w,
     match fineGrainedBackup E L bc startKey endKey backupTS path sched ledger
             (init w) with
     | Running r => backoff_discipline (trace (st r))
     | Returned _ _ s' => backoff_discipline (trace s')
     | Fatal _ => False
     end).
Proof.
  split; [|split].
  - intros r Hrun Hover ms total next.
    pose proof (fineGrainedBackup_inv bc startKey endKey backupTS path sched ledger s) as HI.
    rewrite Hrun in HI. cbn in HI.
    destruct HI as [_ _ _ Hmax Hceil Hslept _ _].
    unfold backupFineGrainedMaxBackoff in Hceil.
    assert (Hbo : bo r = {| maxSleep := 80000; totalSleep := total |}).
    { subst total. destruct (bo r) as [m t]. cbn in *. f_equal; lia. }
    assert (Hnext : next = step3 E L startKey endKey r).
    { subst next. unfold fineGrainedBackup in *. rewrite run_app, Hrun.
      cbn [run step]. unfold select_resp. unfold round_over in Hover.
      destruct (respCh r); [|discriminate]. rewrite Hover. reflexivity. }
    fold ms in Hmax.
    split; [exact Hmax|]. split; [exact Hbo|].
    rewrite Hnext. unfold step3, BackoffWithMaxSleep, bind, call, ret.
    rewrite Hmax, Hbo. cbn [maxSleep totalSleep].
    split; [|split].
    + intros Hz. rewrite Hz. reflexivity.
    + intros Hz Hfit. destruct (Z.eqb_spec ms 0); [contradiction|].
      destruct (Z.ltb_spec 80000 (total + ms)); [lia|]. reflexivity.
    + intros Hz Hover'. destruct (Z.eqb_spec ms 0); [contradiction|].
      destruct (Z.ltb_spec 80000 (total + ms)); [|lia]. reflexivity.
  - pose proof (fineGrainedBackup_inv bc startKey endKey backupTS path sched ledger s) as H.
    destruct (fineGrainedBackup E L bc startKey endKey backupTS path sched ledger s)
      as [r|err tree s'|s']; cbn in H.
    + destruct H as [_ _ _ H4 H5 H6 H7 _].
      unfold backupFineGrainedMaxBackoff in *. repeat split; try lia; assumption.
    + unfold backupFineGrainedMaxBackoff in *. tauto.
    + exact H.
  - intros w.
    pose proof (fineGrainedBackup_inv bc startKey endKey backupTS path sched ledger (init w)) as H.
    pose proof (fineGrainedBackup_disciplined bc startKey endKey backupTS path sched ledger w) as Hd.
    destruct (fineGrainedBackup E L bc startKey endKey backupTS path sched ledger (init w))
      as [r|err tree s'|s']; cbn in H, Hd; assumption.
Qed.

(** ** BackupRange *)

Lemma allocations_extends bc backupTS path tr tr' :
  extends (fineGrained_event bc backupTS path) tr tr' ->
  allocations tr' = allocations tr.
Proof.
  intros [new [-> H]]. unfold allocations. rewrite filter_app, length_app.
  replace (filter is_GetTS new) with (@nil Event); [reflexivity|].
  induction H as [|ev new Hev _ IH]; [reflexivity|].
  destruct ev; cbn in *; try contradiction; exact IH.
Qed.

Lemma write_reached_extends bc backupTS path tr tr' :
  extends (fineGrained_event bc backupTS path) tr tr' ->
  write_reached tr' = write_reached tr.
Proof.
  intros [new [-> H]]. unfold write_reached. rewrite existsb_app.
  replace (existsb is_WriteFile new) with false; [reflexivity|].
  induction H as [|ev new Hev _ IH]; [reflexivity|].
  destruct ev; cbn in *; try contradiction; exact IH.
Qed.

Lemma fineGrained_event_at_timestamp bc backupTS path ev :
  fineGrained_event bc backupTS path ev -> at_timestamp backupTS ev.
Proof. destruct ev; cbn; tauto. Qed.

Lemma fineGrainedBackup_audit audit bc startKey endKey backupTS path sched
    rangeTree (s : St) :
  fineGrainedBackup E (with_audit L audit) bc startKey endKey backupTS path
    sched rangeTree s =
  fineGrainedBackup E L bc startKey endKey backupTS path sched rangeTree s.
Proof. reflexivity. Qed.

(** C8. In one invocation of BackupRange exactly one timestamp is
    allocated, and every backup request of the invocation, the broadcast
    one and the one of every handleFineGrained call, has the encoding of
    that timestamp as its StartVersion and as its EndVersion. *)
Theorem one_timestamp_for_every_request sched bc startKey endKey path (w : World) :
  let '(p, l, _) := fst (pd_GetTS E w) in
  let backupTS := meta_EncodeTs E {| Physical := p; Logical := l |} in
  let tr := trace (snd (BackupRange E L sched bc startKey endKey path (init w))) in
  allocations tr = 1%nat /\ Forall (at_timestamp backupTS) tr.
Proof.
  unfold BackupRange, GetTS, GetAllStores, call, log, init. cbn [world trace].
  destruct (pd_GetTS E w) as [[[p l] e] w1]. cbn [fst].
  destruct e as [e|]; cbn [snd trace].
  { split; [reflexivity|repeat constructor]. }
  cbn [world trace]. destruct (pd_GetAllStores E w1) as [[allStores e] w2].
  destruct e as [e|]; cbn [snd trace].
  { split; [reflexivity|repeat constructor]. }
  set (ts := meta_EncodeTs E {| Physical := p; Logical := l |}).
  cbn [world trace].
  match goal with |- context [pushBackup E ?req _ _] => set (req0 := req) end.
  destruct (pushBackup E req0 allStores w2) as [[results e] w3].
  assert (Hpre : allocations [EvPushBackup req0 allStores; EvGetAllStores; EvGetTS] = 1%nat
                 /\ Forall (at_timestamp ts)
                      [EvPushBackup req0 allStores; EvGetAllStores; EvGetTS]).
  { split; [reflexivity|]. repeat constructor. }
  destruct e as [e|]; cbn [snd trace]; [exact Hpre|].
  cbn [world trace].
  match goal with |- context [fineGrainedBackup E L bc startKey endKey ts path sched ?t ?s0] =>
    pose proof (fineGrainedBackup_inv bc startKey endKey ts path sched t s0) as HI;
    destruct (fineGrainedBackup E L bc startKey endKey ts path sched t s0)
      as [r|err tree s'|s']
  end; cbn in HI.
  - destruct HI as [H1 _ _ _ _ _ _ _]. cbn [snd].
    split.
    + rewrite (allocations_extends H1). apply Hpre.
    + eapply extends_Forall; [|apply Hpre].
      eapply extends_weaken; [|exact H1]. apply fineGrained_event_at_timestamp.
  - destruct HI as [H1 _].
    assert (Hs' : allocations (trace s') = 1%nat /\ Forall (at_timestamp ts) (trace s')).
    { split.
      + rewrite (allocations_extends H1). apply Hpre.
      + eapply extends_Forall; [|apply Hpre].
        eapply extends_weaken; [|exact H1]. apply fineGrained_event_at_timestamp. }
    destruct err as [err|]; [exact Hs'|].
    cbn [world trace]. destruct (proto_Marshal E _) as [data e]. destruct e as [e|]; cbn [snd trace].
    { destruct Hs' as [Ha Hf]. split; [exact Ha|constructor; [exact I|exact Hf]]. }
    cbn [world trace]. destruct (ioutil_WriteFile E _ data 420 (world s')) as [e w4].
    destruct Hs' as [Ha Hf].
    destruct e as [e|]; cbn [snd trace];
      (split; [exact Ha|repeat (constructor; [exact I|]); exact Hf]).
  - contradiction.
Qed.

Lemma BackupRange_cases sched bc startKey endKey path (w : World) :
  let '(res, s') := BackupRange E L sched bc startKey endKey path (init w) in
  match res with
  | Return None =>
    exists results_ok data older w1,
      trace s' = EvCheckDupFiles (checkDupFiles L results_ok)
                   :: EvWriteFile "backupmeta" data 420 :: older /\
      getIncompleteRange L results_ok startKey endKey = [] /\
      proto_Marshal E {| meta_Files := flat_map Files (Ascend L results_ok);
                         meta_Path := path |} = (data, None) /\
      ioutil_WriteFile E "backupmeta" data 420 w1 = (None, world s') /\
      write_reached older = false
  | Return (Some err) =>
    write_reached (trace s') = false \/
    exists data older w1 werr,
      trace s' = EvWriteFile "backupmeta" data 420 :: older /\
      ioutil_WriteFile E "backupmeta" data 420 w1 = (Some werr, world s') /\
      err = Trace werr /\
      write_reached older = false
  | Exit => False
  | Unfinished => write_reached (trace s') = false
  end.
Proof.
  unfold BackupRange.
  unfold GetTS, GetAllStores, call, log, init. cbn [world trace].
  destruct (pd_GetTS E w) as [[[p l] e] w1].
  destruct e as [e|]; [left; reflexivity|].
  cbn [world trace]. destruct (pd_GetAllStores E w1) as [[allStores e] w2].
  destruct e as [e|]; [left; reflexivity|].
  set (ts := meta_EncodeTs E {| Physical := p; Logical := l |}).
  cbn [world trace].
  match goal with |- context [pushBackup E ?req _ _] => set (req0 := req) end.
  destruct (pushBackup E req0 allStores w2) as [[results e] w3].
  destruct e as [e|]; [left; reflexivity|].
  cbn [world trace].
  match goal with |- context [fineGrainedBackup E L bc startKey endKey ts path sched ?t ?s0] =>
    pose proof (fineGrainedBackup_inv bc startKey endKey ts path sched t s0) as HI;
    destruct (fineGrainedBackup E L bc startKey endKey ts path sched t s0)
      as [r|err tree s'|s']
  end; cbn in HI.
  - destruct HI as [H1 _ _ _ _ _ _ _].
    rewrite (write_reached_extends H1). reflexivity.
  - destruct HI as [H1 [_ Hexit]].
    pose proof (write_reached_extends H1) as Hw. cbn in Hw.
    destruct err as [err|]; [left; exact Hw|].
    cbn [world trace]. destruct (proto_Marshal E _) as [data e] eqn:Hm.
    destruct e as [e|]; [left; exact Hw|].
    cbn [world trace]. destruct (ioutil_WriteFile E _ data 420 (world s')) as [e w4] eqn:Hwf.
    destruct e as [e|].
    + right. exists data, (EvMarshal {| meta_Files := flat_map Files (Ascend L tree);
                                        meta_Path := path |} :: trace s'),
               (world s'), e.
      cbn [trace world]. repeat split; try assumption.
    + exists tree, data,
        (EvMarshal {| meta_Files := flat_map Files (Ascend L tree);
                      meta_Path := path |} :: trace s'), (world s').
      cbn [trace world]. repeat split; try assumption.
  - contradiction.
Qed.

Lemma BackupRange_audit audit sched bc startKey endKey path (s : St) :
  fst (BackupRange E (with_audit L audit) sched bc startKey endKey path s) =
  fst (BackupRange E L sched bc startKey endKey path s).
Proof.
  unfold BackupRange.
  destruct (GetTS E s) as [[[p l] e] s1]. destruct e; [reflexivity|].
  destruct (GetAllStores E s1) as [[allStores e] s2]. destruct e; [reflexivity|].
  destruct (call _ _ s2) as [[results e] s3]. destruct e; [reflexivity|].
  rewrite fineGrainedBackup_audit.
  destruct (fineGrainedBackup E L _ _ _ _ _ _ _ s3) as [r|[err|] tree s4|s4];
    try reflexivity.
  cbn [with_audit Ascend]. unfold call, log.
  destruct (proto_Marshal E _) as [data e]. destruct e; [reflexivity|].
  cbn [world]. destruct (ioutil_WriteFile E _ _ _ _) as [e w']. destruct e; reflexivity.
Qed.

(** C1, as the code has it. BackupRange returns nil only after it has
    written the manifest: the file "backupmeta" holds the encoding of the
    files of the ledger the retry loop left, in which nothing is
    incomplete, and of the path; the write succeeded, nothing was written
    before it, and the audit for duplicate files runs after it.  When BackupRange returns an error, either the
    manifest write was not reached (failure of the timestamp allocation,
    of the store listing, of the push-down, of the fine-grained backup or
    of the encoding of the manifest), or the error is the failure of the
    manifest write itself, which was the last call made.  Whatever the
    audit reports, the returned result is the same. *)
Theorem BackupRange_manifest_or_error sched bc startKey endKey path (w : World) :
  let '(res, s') := BackupRange E L sched bc startKey endKey path (init w) in
  match res with
  | Return None =>
    exists results_ok data older w1,
      trace s' = EvCheckDupFiles (checkDupFiles L results_ok)
                   :: EvWriteFile "backupmeta" data 420 :: older /\
      getIncompleteRange L results_ok startKey endKey = [] /\
      proto_Marshal E {| meta_Files := flat_map Files (Ascend L results_ok);
                         meta_Path := path |} = (data, None) /\
      ioutil_WriteFile E "backupmeta" data 420 w1 = (None, world s') /\
      write_reached older = false
  | Return (Some err) =>
    write_reached (trace s') = false \/
    exists data older w1 werr,
      trace s' = EvWriteFile "backupmeta" data 420 :: older /\
      ioutil_WriteFile E "backupmeta" data 420 w1 = (Some werr, world s') /\
      err = Trace werr /\
      write_reached older = false
  | Exit => False
  | Unfinished => write_reached (trace s') = false
  end /\
  forall audit,
    fst (BackupRange E (with_audit L audit) sched bc startKey endKey path (init w))
    = res.
Proof.
  pose proof (BackupRange_cases sched bc startKey endKey path w) as Hc.
  pose proof (fun audit =>
    BackupRange_audit audit sched bc startKey endKey path (init w)) as Ha.
  destruct (BackupRange E L sched bc startKey endKey path (init w)) as [res s'].
  split; [exact Hc|exact Ha].
Qed.

End Properties.

(** * Concrete runs *)

Import Reference.

(** Every call succeeds: BackupRange returns nil, whatever the audit. *)
Lemma BackupRange_manifest_or_error_witness :
  fst (BackupRange (scripted calm) ledger two_rounds client ka km "dst" (init 0%nat))
  = Return None /\
  forall audit,
    fst (BackupRange (scripted calm) (with_audit ledger audit) two_rounds
           client ka km "dst" (init 0%nat)) = Return None.
Proof.
  pose proof (BackupRange_manifest_or_error (scripted calm) ledger two_rounds
                client ka km "dst" 0%nat) as H.
  vm_compute in H. vm_compute. split; [reflexivity|exact (proj2 H)].
Defined.

(** C1, as stated, fails when the manifest write itself fails:
    BackupRange returns an error although the write was reached. *)
Lemma BackupRange_error_after_write_reached :
  let '(res, s') :=
    BackupRange (scripted disk_full) ledger two_rounds client ka km "dst"
      (init 0%nat) in
  res = Return (Some (Trace (External_error "no space left on device"))) /\
  write_reached (trace s') = true.
Proof. vm_compute. split; reflexivity. Qed.



(** A lock that lives for another 30 ms: backoff 30, no error.  A lock
    that has expired: backoff 0, no error. *)
Lemma onBackupResponse_key_locked_witness :
  onBackupResponse (scripted (locked_for 30)) (NewBackoffer 80000)
    (failed lock_conflict) (init 0%nat) =
  (None, 30, None,
   {| world := 1%nat; trace := [EvResolveLocks [NewLock a_lock]] |}) /\
  onBackupResponse (scripted (locked_for 0)) (NewBackoffer 80000)
    (failed lock_conflict) (init 0%nat) =
  (None, 0, None,
   {| world := 1%nat; trace := [EvResolveLocks [NewLock a_lock]] |}).
Proof.
  split.
  - refine (proj1 (proj2 (@onBackupResponse_key_locked nat (list Range)
                     (scripted (locked_for 30)) (NewBackoffer 80000)
                     (failed lock_conflict) lock_conflict
                     {| Locked := Some a_lock; Retryable := ""; Abort := "" |}
                     a_lock (init 0%nat) eq_refl eq_refl eq_refl)) eq_refl _).
    lia.
  - exact (proj2 (proj2 (@onBackupResponse_key_locked nat (list Range)
                     (scripted (locked_for 0)) (NewBackoffer 80000)
                     (failed lock_conflict) lock_conflict
                     {| Locked := Some a_lock; Retryable := ""; Abort := "" |}
                     a_lock (init 0%nat) eq_refl eq_refl eq_refl)) eq_refl eq_refl).
Defined.

(** NotLeader: backoff 1000, no error. *)
Lemma onBackupResponse_region_error_witness :
  onBackupResponse (scripted calm) (NewBackoffer 80000)
    (failed region_error) (init 0%nat) = (None, 1000, None, init 0%nat).
Proof.
  exact (proj2 (@onBackupResponse_region_error nat (list Range)
                  (scripted calm) (NewBackoffer 80000) (failed region_error)
                  region_error not_leader (init 0%nat) eq_refl eq_refl)).
Defined.

(** Three runs that reach the end of a round.  A lock that has expired:
    no backoff is recorded and the next round starts on the same state.
    Locks that live for another 30 and 70 ms: the coordinator sleeps
    70 ms.  Locks that live for another 30 s: after two rounds the run
    has slept 60 s, and at the end of the third it returns the timeout. *)
Lemma round_backoff_bounded_witness :
  (exists r,
     fineGrainedBackup (scripted (locked_for 0)) ledger client ka km 1310727
       "dst" lone_worker (ok pushed) (init 0%nat) = Running r /\
     round_over r = true /\
     filter is_BackoffMs (trace (st r)) = [EvBackoffMs 0; EvBackoffMs 0] /\
     fineGrainedBackup (scripted (locked_for 0)) ledger client ka km 1310727
       "dst" (lone_worker ++ [SelectResp]) (ok pushed) (init 0%nat) =
     loop_head ledger ka km (NewBackoffer 80000) (ok pushed) (st r)) /\
  (exists r,
     fineGrainedBackup (scripted locks_expiring) ledger client ka km 1310727
       "dst" lone_worker (ok pushed) (init 0%nat) = Running r /\
     round_over r = true /\
     filter is_BackoffMs (trace (st r)) = [EvBackoffMs 70; EvBackoffMs 30] /\
     fineGrainedBackup (scripted locks_expiring) ledger client ka km 1310727
       "dst" (lone_worker ++ [SelectResp]) (ok pushed) (init 0%nat) =
     loop_head ledger ka km {| maxSleep := 80000; totalSleep := 70 |} (ok pushed)
       {| world := S (world (st r));
          trace := EvBackoff 2 70 :: trace (st r) |}) /\
  (exists r,
     fineGrainedBackup (scripted (locked_for 30000)) ledger client ka km
       1310727 "dst" third_round_end (ok pushed) (init 0%nat) = Running r /\
     round_over r = true /\
     filter is_BackoffMs (this_round (trace (st r))) =
       [EvBackoffMs 30000; EvBackoffMs 30000] /\
     slept (trace (st r)) = 60000 /\
     fineGrainedBackup (scripted (locked_for 30000)) ledger client ka km
       1310727 "dst" (third_round_end ++ [SelectResp]) (ok pushed) (init 0%nat) =
     Returned (Some (Trace (Err_maxSleep_exceeded 2 80000))) (ok pushed) (st r)).
Proof.
  split; [|split].
  - destruct (fineGrainedBackup (scripted (locked_for 0)) ledger client ka km
                1310727 "dst" lone_worker (ok pushed) (init 0%nat))
      as [r|e t s'|s'] eqn:Hrun; try (vm_compute in Hrun; discriminate).
    pose proof (proj1 (round_backoff_bounded (scripted (locked_for 0)) ledger
                         client ka km 1310727 "dst" lone_worker (ok pushed)
                         (init 0%nat)) r Hrun) as H.
    vm_compute in Hrun. injection Hrun as Hr. subst r.
    specialize (H eq_refl). cbv zeta in H. destruct H as (_ & _ & Ha & _ & _).
    eexists. split; [reflexivity|]. split; [reflexivity|].
    split; [reflexivity|].
    vm_compute in Ha. vm_compute. exact (Ha eq_refl).
  - destruct (fineGrainedBackup (scripted locks_expiring) ledger client ka km
                1310727 "dst" lone_worker (ok pushed) (init 0%nat))
      as [r|e t s'|s'] eqn:Hrun; try (vm_compute in Hrun; discriminate).
    pose proof (proj1 (round_backoff_bounded (scripted locks_expiring) ledger
                         client ka km 1310727 "dst" lone_worker (ok pushed)
                         (init 0%nat)) r Hrun) as H.
    vm_compute in Hrun. injection Hrun as Hr. subst r.
    specialize (H eq_refl). cbv zeta in H. destruct H as (_ & _ & _ & Hb & _).
    eexists. split; [reflexivity|]. split; [reflexivity|].
    split; [reflexivity|].
    vm_compute in Hb. vm_compute.
    apply Hb; intros X; discriminate X.
  - destruct (fineGrainedBackup (scripted (locked_for 30000)) ledger client ka km
                1310727 "dst" third_round_end (ok pushed) (init 0%nat))
      as [r|e t s'|s'] eqn:Hrun; try (vm_compute in Hrun; discriminate).
    pose proof (proj1 (round_backoff_bounded (scripted (locked_for 30000)) ledger
                         client ka km 1310727 "dst" third_round_end (ok pushed)
                         (init 0%nat)) r Hrun) as H.
    vm_compute in Hrun. injection Hrun as Hr. subst r.
    specialize (H eq_refl). cbv zeta in H. destruct H as (_ & _ & _ & _ & Hc).
    eexists. split; [reflexivity|]. split; [reflexivity|].
    split; [reflexivity|]. split; [reflexivity|].
    vm_compute in Hc. vm_compute.
    apply Hc; [intros X; discriminate X|reflexivity].
Defined.

(** A leader found at the first lookup, and no leader in five lookups. *)
Lemma findRegionLeader_bounded_retry_witness :
  findRegionLeader (scripted calm) kk (init 0%nat) =
    (inl leader1,
     {| world := 1%nat; trace := [EvGetRegion (kk ++ ["000"%byte])%list] |}) /\
  findRegionLeader (scripted leaderless) kk (init 0%nat) =
    (inr (Errorf_can_not_find_region (kk ++ ["000"%byte])%list),
     {| world := 10%nat;
        trace := failed_lookups (kk ++ ["000"%byte])%list 5 |}).
Proof.
  split.
  - refine (proj1 (findRegionLeader_bounded_retry (scripted calm) kk (init 0%nat))
                  0%nat leader1 _ _ eq_refl); [lia|].
    intros i Hi. lia.
  - refine (proj2 (findRegionLeader_bounded_retry (scripted leaderless) kk
                     (init 0%nat)) _).
    intros i Hi.
    do 5 (destruct i as [|i]; [reflexivity|]). lia.
Defined.

(** One allocation, and every request at its encoding, in a run with a
    retry round. *)
Lemma one_timestamp_for_every_request_witness :
  let tr := trace (snd (BackupRange (scripted hiccup) ledger two_rounds client
                          ka km "dst" (init 0%nat))) in
  allocations tr = 1%nat /\ Forall (at_timestamp 1310727) tr.
Proof.
  exact (one_timestamp_for_every_request (scripted hiccup) ledger two_rounds
           client ka km "dst" 0%nat).
Defined.

(** A run in which a node answers with an error: nothing with an error
    is sent on respCh. *)
Lemma forwarded_responses_carry_no_error_witness :
  match fineGrainedBackup (scripted hiccup) ledger client ka km 1310727 "dst"
          two_rounds (ok pushed) (init 0%nat) with
  | Running r =>
    extends forwarded_ok [] (trace (st r)) /\ Forall no_Error (respCh r)
  | Returned _ _ s' => extends forwarded_ok [] (trace s')
  | Fatal _ => False
  end.
Proof.
  exact (forwarded_responses_carry_no_error (scripted hiccup) ledger client ka km
           1310727 "dst" two_rounds (ok pushed) (init 0%nat)).
Defined.

(** C5 on the code. The node answers the call for [k, m) with an error it
    gives no detail for.  The classifier makes it an error and worker 1
    sends it on errCh.  When the coordinator's select takes errCh,
    BackupRange returns that error and the manifest write is not reached.
    When the select instead keeps taking respCh, which is closed once all
    workers have returned, the round ends as if nothing had failed:
    [k, m) is dispatched again in a second round, BackupRange returns nil
    and the manifest is written. *)
Theorem fatal_response_missed_by_select :
  onBackupResponse (scripted hiccup) (NewBackoffer 80000) (failed unknown_error)
    (init 0%nat) = (None, 0, Some (Errorf_resp_Error unknown_error), init 0%nat) /\
  (let '(res, s') :=
     BackupRange (scripted hiccup) ledger notice_error client ka km "dst"
       (init 0%nat) in
   res = Return (Some (Errorf_resp_Error unknown_error)) /\
   write_reached (trace s') = false) /\
  (let '(res, s') :=
     BackupRange (scripted hiccup) ledger two_rounds client ka km "dst"
       (init 0%nat) in
   sent_on_errCh (trace s') = [Errorf_resp_Error unknown_error] /\
   rounds (trace s') =
     [ [ {| StartKey := kk; EndKey := km; Files := [] |} ];
       [ {| StartKey := ka; EndKey := kf; Files := [] |};
         {| StartKey := kk; EndKey := km; Files := [] |} ] ] /\
   res = Return None /\
   write_reached (trace s') = true).
Proof. vm_compute. repeat split. Qed.

(** C10 on the code. The placement driver finds no leader for the start
    key of [k, m) in five lookups.  handleFineGrained returns the error
    with backoff 0 and worker 1 sends it on errCh.  When the
    coordinator's select takes errCh, BackupRange returns that error.
    When the select instead keeps taking respCh, which is closed once all
    workers have returned, the error is lost: [k, m) is dispatched again
    in a second round and BackupRange returns nil. *)
Theorem leader_failure_missed_by_select :
  handleFineGrained (scripted leaderless) client (NewBackoffer 80000)
    {| StartKey := kk; EndKey := km; Files := [] |} 1310727 "dst" (init 0%nat) =
  ([], 0, Some (Errorf_can_not_find_region (kk ++ ["000"%byte])%list),
   {| world := 10%nat; trace := failed_lookups (kk ++ ["000"%byte])%list 5 |}) /\
  fst (BackupRange (scripted leaderless) ledger notice_error client ka km "dst"
         (init 0%nat)) =
  Return (Some (Errorf_can_not_find_region (kk ++ ["000"%byte])%list)) /\
  (let '(res, s') :=
     BackupRange (scripted leaderless) ledger two_rounds client ka km "dst"
       (init 0%nat) in
   sent_on_errCh (trace s') =
     [Errorf_can_not_find_region (kk ++ ["000"%byte])%list] /\
   rounds (trace s') =
     [ [ {| StartKey := kk; EndKey := km; Files := [] |} ];
       [ {| StartKey := ka; EndKey := kf; Files := [] |};
         {| StartKey := kk; EndKey := km; Files := [] |} ] ] /\
   res = Return None).
Proof. vm_compute. repeat split. Qed.

(** * Further properties *)

Section Further.

Variables World RangeTree : Type.
Variable E : External World RangeTree.
Variable L : Ledger RangeTree.

Local Abbreviation St := (St World).

(** ** The classifier, all cases *)

(** X1. The classifier hands the response back exactly when it carries no
    error, and then asks for no backoff, returns no error and calls
    nothing.  For a response with an error it hands nothing back, the
    backoff it asks for is never negative, and it is 0 whenever an error
    is returned. *)
Theorem onBackupResponse_outcome bo resp (s : St) :
  let '(response, backoffMs, err, s') := onBackupResponse E bo resp s in
  (Error resp = None /\ response = Some resp /\ backoffMs = 0 /\
   err = None /\ s' = s) \/
  (Error resp <> None /\ response = None /\ 0 <= backoffMs /\
   (err = None \/ backoffMs = 0)).
Proof.
  unfold onBackupResponse, bind, ret, lockResolver_ResolveLocks, call.
  destruct (Error resp) as [e|]; [|left; auto].
  assert (Hne : Some e <> None) by discriminate.
  destruct (Detail e) as [[c|v|re]|]; try (right; repeat split; auto; lia).
  - destruct (Locked v); [|right; repeat split; auto; lia].
    destruct (ResolveLocks E bo _ (world s)) as [[ms [e1|]] w];
      [right; repeat split; auto; lia|].
    destruct (Z.ltb_spec 0 ms); right; repeat split; auto; lia.
  - destruct (negb (ignorable re)); right; repeat split; auto; lia.
Qed.

(** X2. The only call the classifier ever makes is one lock resolution,
    on the lock the response reports; a response that reports no lock
    leaves the world and the trace as they were. *)
Theorem onBackupResponse_calls bo resp (s : St) :
  snd (onBackupResponse E bo resp s) =
  match reported_lock resp with
  | Some lockErr =>
    {| world := snd (ResolveLocks E bo [NewLock lockErr] (world s));
       trace := EvResolveLocks [NewLock lockErr] :: trace s |}
  | None => s
  end.
Proof.
  unfold onBackupResponse, reported_lock, bind, ret, lockResolver_ResolveLocks, call.
  destruct (Error resp) as [e|]; [|reflexivity].
  destruct (Detail e) as [[c|v|re]|]; try reflexivity.
  - destruct (Locked v); [|reflexivity].
    destruct (ResolveLocks E bo _ (world s)) as [[ms [e1|]] w]; reflexivity.
  - destruct (negb (ignorable re)); reflexivity.
Qed.

(** X3. A storage-layer error is retried only when it is a lock conflict
    that the resolver could work on: the backoff is then the remaining
    lifetime of the lock, and 0 when that lifetime is negative.  A failure
    of the resolver is fatal, and so is every storage-layer error that
    reports no lock, for which the resolver is not called. *)
Theorem onBackupResponse_kv_error bo resp e v (s : St) :
  Error resp = Some e ->
  Detail e = Some (Error_KvError v) ->
  onBackupResponse E bo resp s =
  match Locked v with
  | None => (None, 0, Some (Errorf_onBackupResponse (Error_KvError v)), s)
  | Some lockErr =>
    let '(msBeforeExpired, err1, w) :=
      ResolveLocks E bo [NewLock lockErr] (world s) in
    let s' := {| world := w;
                 trace := EvResolveLocks [NewLock lockErr] :: trace s |} in
    match err1 with
    | Some err1 => (None, 0, Some (Trace err1), s')
    | None => (None, Z.max 0 msBeforeExpired, None, s')
    end
  end.
Proof.
  intros He Hd.
  unfold onBackupResponse, bind, ret, lockResolver_ResolveLocks, call.
  rewrite He, Hd. destruct (Locked v) as [lockErr|]; [|reflexivity].
  destruct (ResolveLocks E bo _ (world s)) as [[ms [e1|]] w]; [reflexivity|].
  destruct (Z.ltb_spec 0 ms); [rewrite Z.max_r by lia|rewrite Z.max_l by lia];
    reflexivity.
Qed.

(** ** The leader resolver, whatever the placement driver answers *)

Lemma sleep_total_app tr1 tr2 :
  sleep_total (tr1 ++ tr2) = sleep_total tr1 + sleep_total tr2.
Proof. induction tr1 as [|[] tr1 IH]; cbn; lia. Qed.

Lemma lookups_app tr1 tr2 : lookups (tr1 ++ tr2) = (lookups tr1 + lookups tr2)%nat.
Proof. unfold lookups. rewrite filter_app, length_app. reflexivity. Qed.

(** What [n] iterations starting at index [i] can add. *)
Lemma findRegionLeader_loop_bound n : forall i key (s : St),
  0 <= i ->
  let '(res, s') := findRegionLeader_loop E n i key s in
  exists new,
    trace s' = new ++ trace s /\
    Forall (resolver_event key) new /\
    (lookups new <= n)%nat /\
    0 <= sleep_total new <=
      100 * Z.of_nat n * i + 50 * Z.of_nat n * (Z.of_nat n - 1) /\
    match res with
    | inl _ => (1 <= lookups new)%nat
    | inr err =>
      err = Errorf_can_not_find_region key /\ lookups new = n /\
      sleep_total new =
        100 * Z.of_nat n * i + 50 * Z.of_nat n * (Z.of_nat n - 1)
    end.
Proof.
  induction n as [|n IH]; intros i key s Hi.
  - cbn. exists []. repeat split; auto; cbn; lia.
  - cbn [findRegionLeader_loop]. unfold bind, GetRegion, Sleep, call.
    destruct (pd_GetRegion E key (world s)) as [[[rg leader] e] w].
    set (s1 := {| world := time_Sleep E (100 * i) w;
                  trace := EvSleep (100 * i) :: EvGetRegion key :: trace s |}).
    assert (Hmiss :
      let '(res, s') := findRegionLeader_loop E n (i + 1) key s1 in
      exists new,
        trace s' = new ++ trace s /\
        Forall (resolver_event key) new /\
        (lookups new <= S n)%nat /\
        0 <= sleep_total new <=
          100 * Z.of_nat (S n) * i + 50 * Z.of_nat (S n) * (Z.of_nat (S n) - 1) /\
        match res with
        | inl _ => (1 <= lookups new)%nat
        | inr err =>
          err = Errorf_can_not_find_region key /\ lookups new = S n /\
          sleep_total new =
            100 * Z.of_nat (S n) * i + 50 * Z.of_nat (S n) * (Z.of_nat (S n) - 1)
        end).
    { specialize (@IH (i + 1) key s1 ltac:(lia)).
      destruct (findRegionLeader_loop E n (i + 1) key s1) as [res s'].
      destruct IH as [new [Htr [Hall [Hcnt [Hsl Hres]]]]].
      exists (new ++ [EvSleep (100 * i); EvGetRegion key]).
      split; [rewrite Htr; cbn; rewrite <- app_assoc; reflexivity|].
      split; [apply Forall_app; split;
               [assumption|constructor; [change (0 <= 100 * i); lia
                                       |constructor; [reflexivity|constructor]]]|].
      rewrite lookups_app, sleep_total_app. cbn [lookups filter is_GetRegion List.length sleep_total].
      change (lookups [EvSleep (100 * i); EvGetRegion key]) with 1%nat.
      split; [lia|]. split; [nia|].
      destruct res as [l|err]; [lia|].
      destruct Hres as [-> [Hc Hs]]. repeat split; [lia|nia]. }
    destruct e as [e|]; [destruct leader; exact Hmiss|].
    destruct leader as [leader|]; [|exact Hmiss].
    unfold ret. cbv beta iota. exists [EvGetRegion key].
    change (lookups [EvGetRegion key]) with 1%nat.
    change (sleep_total [EvGetRegion key]) with 0.
    split; [reflexivity|]. split; [constructor; [reflexivity|constructor]|].
    split; [lia|]. split; [nia|lia].
Qed.

(** X4. Whatever the placement driver answers, the leader resolver adds
    only lookups of the encoded key and sleeps to the trace, makes at
    least one and at most five lookups, and sleeps for at most 1000 ms in
    total. *)
Theorem findRegionLeader_cost key (s : St) :
  exists new,
    trace (snd (findRegionLeader E key s)) = new ++ trace s /\
    Forall (resolver_event (codec_EncodeBytes E [] key)) new /\
    (1 <= lookups new <= 5)%nat /\
    0 <= sleep_total new <= 1000.
Proof.
  unfold findRegionLeader.
  pose proof (@findRegionLeader_loop_bound 5%nat 0 (codec_EncodeBytes E [] key) s
                ltac:(lia)) as H.
  destruct (findRegionLeader_loop E 5 0 _ s) as [res s'].
  destruct H as [new [Htr [Hall [Hcnt [Hsl Hres]]]]].
  exists new. cbn [snd]. repeat split; try assumption; try lia.
  destruct res as [l|err]; [lia|]. destruct Hres as [_ [Hc _]]. lia.
Qed.

(** X5. The only error the leader resolver returns is "can not find
    region", for the encoded key; an error of the placement driver is
    never passed on.  It is returned after exactly five lookups and
    1000 ms of sleep. *)
Theorem findRegionLeader_error key (s : St) err s' :
  findRegionLeader E key s = (inr err, s') ->
  err = Errorf_can_not_find_region (codec_EncodeBytes E [] key) /\
  exists new,
    trace s' = new ++ trace s /\ lookups new = 5%nat /\ sleep_total new = 1000.
Proof.
  unfold findRegionLeader. intros Hrun.
  pose proof (@findRegionLeader_loop_bound 5%nat 0 (codec_EncodeBytes E [] key) s
                ltac:(lia)) as H.
  rewrite Hrun in H. destruct H as [new [Htr [_ [_ [_ [-> [Hc Hs]]]]]]].
  split; [reflexivity|]. exists new. repeat split; [assumption|assumption|].
  rewrite Hs. reflexivity.
Qed.

(** ** The worker action, response by response *)

Section WorkerDetail.

Variable bc : BackupClient.
Variable bo : Backoffer.
Variable backupTS : Z.
Variable path : string.

Lemma respFn_sent resp c (s : St) :
  let '(err, c', s') := respFn E bo resp c s in
  extends lock_resolution (trace s) (trace s') /\
  match err with
  | Some _ => c' = c
  | None =>
    sent c' = sent c ++ filter confirmed_response [resp] /\ max c <= max c'
  end.
Proof.
  unfold respFn, bind.
  pose proof (onBackupResponse_calls bo resp s) as Hc.
  pose proof (onBackupResponse_outcome bo resp s) as Ho.
  destruct (onBackupResponse E bo resp s) as [[[response ms] e] s1].
  cbn [snd] in Hc.
  assert (Hx : extends lock_resolution (trace s) (trace s1)).
  { rewrite Hc. destruct (reported_lock resp); [|apply extends_refl].
    apply extends_cons. exact I. }
  destruct e as [e|]; unfold ret; [split; [exact Hx|reflexivity]|].
  split; [exact Hx|]. cbn [sent max filter]. unfold confirmed_response.
  destruct Ho as [[Hn [-> _]]|[Hn [-> _]]].
  - rewrite Hn. split; [reflexivity|]. destruct (Z.ltb_spec (max c) ms); lia.
  - destruct (Error resp); [|contradiction].
    split; [rewrite app_nil_r; reflexivity|].
    destruct (Z.ltb_spec (max c) ms); lia.
Qed.

Lemma SendBackup_recv_sent resps : forall fin c (s : St),
  let '(err, c', s') := SendBackup_recv (respFn E bo) resps fin c s in
  extends lock_resolution (trace s) (trace s') /\
  max c <= max c' /\
  exists k,
    (k <= List.length resps)%nat /\
    sent c' = sent c ++ filter confirmed_response (firstn k resps) /\
    match err with
    | None => k = List.length resps /\ fin = None
    | Some _ => True
    end.
Proof.
  induction resps as [|resp rest IH]; intros fin c s.
  - cbn. split; [apply extends_refl|]. split; [lia|]. exists 0%nat.
    rewrite app_nil_r. repeat split; auto. destruct fin; auto.
  - cbn [SendBackup_recv]. unfold bind.
    pose proof (respFn_sent resp c s) as Hr.
    destruct (respFn E bo resp c s) as [[e c1] s1].
    destruct Hr as [Hx1 Hc1].
    destruct e as [e|].
    + unfold ret. subst c1. split; [exact Hx1|]. split; [lia|].
      exists 0%nat. cbn. rewrite app_nil_r. repeat split; auto. lia.
    + destruct Hc1 as [Hs1 Hm1].
      specialize (IH fin c1 s1).
      destruct (SendBackup_recv (respFn E bo) rest fin c1 s1) as [[e2 c2] s2].
      destruct IH as [Hx2 [Hm2 [k [Hk [Hs2 He2]]]]].
      split; [eapply extends_trans; eassumption|]. split; [lia|].
      exists (S k). split; [cbn; lia|]. split.
      * rewrite Hs2, Hs1. cbn [firstn filter].
        destruct (confirmed_response resp); cbn [app];
          rewrite <- ?app_assoc; reflexivity.
      * destruct e2; [exact I|]. destruct He2 as [-> ->]. auto.
Qed.

End WorkerDetail.

(** X6. When handleFineGrained returns without error, a leader was found,
    the node's stream ended cleanly, and what was sent on respCh is
    exactly the responses of the stream that carry no error, each once
    and in the order of the stream; the backoff it returns is not
    negative. *)
Theorem handleFineGrained_forwards_confirmed
    bc bo rg backupTS path (s : St) forwarded backoffMs s' :
  handleFineGrained E bc bo rg backupTS path s = (forwarded, backoffMs, None, s') ->
  exists leader s1 resps,
    findRegionLeader E (StartKey rg) s = (inl leader, s1) /\
    fst (backup_stream E (StoreId leader)
           (range_request bc backupTS path rg) (world s1)) = (resps, None) /\
    forwarded = filter confirmed_response resps /\
    0 <= backoffMs.
Proof.
  unfold handleFineGrained, bind.
  destruct (findRegionLeader E (StartKey rg) s) as [[leader|pderr] s1];
    [|discriminate].
  unfold SendBackup, bind, call. fold (range_request bc backupTS path rg).
  destruct (backup_stream E (StoreId leader) (range_request bc backupTS path rg)
              (world s1)) as [[resps fin] w2] eqn:Hst. cbn [fst snd].
  match goal with
  | |- context [SendBackup_recv ?f resps fin ?c ?s2] =>
    pose proof (SendBackup_recv_sent bo resps fin c s2) as Hs;
    destruct (SendBackup_recv f resps fin c s2) as [[e c'] s3]
  end.
  destruct Hs as [_ [Hm [k [Hk [Hsent He]]]]]. cbn [max sent app] in *.
  destruct e as [e|]; unfold ret; [discriminate|].
  intros Hrun. inversion Hrun; subst. destruct He as [-> ->].
  exists leader, s1, resps. rewrite firstn_all in Hsent. rewrite Hst.
  repeat split; auto.
Qed.

(** X7. One call of handleFineGrained makes no backup call when no leader
    is found, and returns the resolver's error with nothing sent and
    backoff 0.  With a leader it makes exactly one backup call, to the
    leader's store, for the keys of the range as they are; after it the
    only calls are lock resolutions.  What it sends on respCh is the
    error-free responses of the part of the stream it read, and when it
    returns an error the backoff it returns is 0. *)
Theorem handleFineGrained_one_backup_call bc bo rg backupTS path (s : St) :
  match findRegionLeader E (StartKey rg) s with
  | (inr pderr, s1) =>
    handleFineGrained E bc bo rg backupTS path s = ([], 0, Some pderr, s1)
  | (inl leader, s1) =>
    let '(resps, fin) :=
      fst (backup_stream E (StoreId leader)
             (range_request bc backupTS path rg) (world s1)) in
    let '(sent, backoffMs, err, s') :=
      handleFineGrained E bc bo rg backupTS path s in
    exists locks k,
      trace s' = locks ++ EvSendBackup (StoreId leader)
                            (range_request bc backupTS path rg) :: trace s1 /\
      Forall lock_resolution locks /\
      (k <= List.length resps)%nat /\
      sent = filter confirmed_response (firstn k resps) /\
      0 <= backoffMs /\
      match err with
      | None => k = List.length resps /\ fin = None
      | Some _ => backoffMs = 0
      end
  end.
Proof.
  unfold handleFineGrained, bind.
  destruct (findRegionLeader E (StartKey rg) s) as [[leader|pderr] s1];
    [|reflexivity].
  unfold SendBackup, bind, call. fold (range_request bc backupTS path rg).
  destruct (backup_stream E (StoreId leader) (range_request bc backupTS path rg) (world s1))
    as [[resps fin] w2]. cbn [fst snd].
  match goal with
  | |- context [SendBackup_recv ?f resps fin ?c ?s2] =>
    pose proof (SendBackup_recv_sent bo resps fin c s2) as Hs;
    destruct (SendBackup_recv f resps fin c s2) as [[e c'] s3]
  end.
  destruct Hs as [[locks [Htr Hlocks]] [Hm [k [Hk [Hsent He]]]]].
  cbn [trace max sent app] in *.
  destruct e as [e|]; unfold ret; exists locks, k; repeat split; auto;
    try lia; apply He.
Qed.

(** ** Accounting for the rounds *)

Lemma count_set_worker (f : Worker -> bool) ws : forall i w w',
  nth_error ws i = Some w ->
  (List.length (filter f (set_worker i w' ws)) + Nat.b2n (f w) =
   List.length (filter f ws) + Nat.b2n (f w'))%nat.
Proof.
  induction ws as [|w0 ws IH]; intros i w w' Hi; [destruct i; discriminate|].
  destruct i as [|i]; cbn in Hi.
  - inversion Hi; subst. cbn. destruct (f w), (f w'); cbn; lia.
  - cbn. specialize (IH i w w' Hi). destruct (f w0); cbn; lia.
Qed.

Lemma length_set_worker ws : forall i w,
  List.length (set_worker i w ws) = List.length ws.
Proof.
  induction ws as [|w0 ws IH]; intros i w; [destruct i; reflexivity|].
  destruct i; cbn; [reflexivity|rewrite IH; reflexivity].
Qed.

Lemma all_Done_nth ws i w :
  forallb is_Done ws = true -> nth_error ws i = Some w -> is_Done w = true.
Proof.
  intros Hall Hi. apply nth_error_In in Hi.
  rewrite forallb_forall in Hall. auto.
Qed.

Lemma all_Done_counts ws :
  forallb is_Done ws = true -> busy ws = 0%nat /\ returned ws = List.length ws.
Proof.
  unfold busy, returned. induction ws as [|w ws IH]; [auto|].
  cbn. destruct w; cbn; try discriminate. intros H.
  destruct (IH H) as [-> ->]. auto.
Qed.

Section RangeEvents.

Variable bc : BackupClient.
Variable backupTS : Z.
Variable path : string.
Variable rg : Range.

Local Abbreviation RE := (range_event bc backupTS path rg).

Lemma this_round_range nw tr :
  Forall RE nw -> this_round (nw ++ tr) = nw ++ this_round tr.
Proof.
  induction 1 as [|ev nw Hev _ IH]; [reflexivity|].
  destruct ev; cbn in *; try contradiction; rewrite IH; reflexivity.
Qed.

Lemma puts_range nw tr : Forall RE nw -> puts (nw ++ tr) = puts tr.
Proof.
  induction 1 as [|ev nw Hev _ IH]; [reflexivity|].
  destruct ev; cbn in *; try contradiction; exact IH.
Qed.

Lemma forwards_range nw tr : Forall RE nw -> forwards (nw ++ tr) = forwards tr.
Proof.
  induction 1 as [|ev nw Hev _ IH]; [reflexivity|].
  destruct ev; cbn in *; try contradiction; exact IH.
Qed.

Lemma handled_range nw tr : Forall RE nw -> handled (nw ++ tr) = handled tr.
Proof.
  intros H. unfold handled. rewrite (this_round_range tr H), filter_app, length_app.
  replace (filter is_BackoffMs nw) with (@nil Event); [reflexivity|].
  induction H as [|ev nw Hev _ IH]; [reflexivity|].
  destruct ev; cbn in *; try contradiction; exact IH.
Qed.

Lemma failures_range nw tr : Forall RE nw -> failures (nw ++ tr) = failures tr.
Proof.
  intros H. unfold failures. rewrite (this_round_range tr H). f_equal.
  induction H as [|ev nw Hev _ IH]; [reflexivity|].
  destruct ev; cbn in *; try contradiction; exact IH.
Qed.

Lemma current_ranges_range nw tr :
  Forall RE nw -> current_ranges (nw ++ tr) = current_ranges tr.
Proof.
  induction 1 as [|ev nw Hev _ IH]; [reflexivity|].
  destruct ev; cbn in *; try contradiction; exact IH.
Qed.

Lemma rounds_accounted_range nw tr :
  Forall RE nw -> rounds_accounted tr -> rounds_accounted (nw ++ tr).
Proof.
  induction 1 as [|ev nw Hev _ IH]; intros Htr; [exact Htr|].
  destruct ev; cbn in *; try contradiction; auto.
Qed.

Lemma requests_in_round_range nw tr :
  Forall RE nw -> In rg (current_ranges tr) ->
  requests_in_round bc backupTS path tr ->
  requests_in_round bc backupTS path (nw ++ tr).
Proof.
  intros H Hin Htr. induction H as [|ev nw Hev Hnw IH]; [exact Htr|].
  destruct ev; cbn in *; try contradiction; auto.
  split; [|exact IH]. exists rg. rewrite (current_ranges_range tr Hnw). auto.
Qed.

Lemma handleFineGrained_events bo (s : St) :
  exists nw,
    trace (snd (handleFineGrained E bc bo rg backupTS path s)) = nw ++ trace s /\
    Forall RE nw.
Proof.
  unfold handleFineGrained, bind, findRegionLeader.
  pose proof (@findRegionLeader_loop_bound 5%nat 0
                (codec_EncodeBytes E [] (StartKey rg)) s ltac:(lia)) as Hl.
  destruct (findRegionLeader_loop E 5 0 _ s) as [[leader|pderr] s1];
    destruct Hl as [n1 [Htr1 [Hall1 _]]].
  2:{ exists n1. split; [exact Htr1|].
      eapply Forall_impl; [|exact Hall1]. intros [] Hev; cbn in *; tauto. }
  unfold SendBackup, bind, call. fold (range_request bc backupTS path rg).
  destruct (backup_stream E (StoreId leader) _ (world s1)) as [[resps fin] w2].
  cbn [fst snd].
  match goal with
  | |- context [SendBackup_recv ?f resps fin ?c ?s2] =>
    pose proof (SendBackup_recv_sent bo resps fin c s2) as Hs;
    destruct (SendBackup_recv f resps fin c s2) as [[e c'] s3]
  end.
  destruct Hs as [[locks [Htr Hlocks]] _]. cbn [trace] in Htr.
  exists (locks ++ EvSendBackup (StoreId leader) (range_request bc backupTS path rg) :: n1).
  split.
  - destruct e; unfold ret; cbn [snd]; rewrite Htr, Htr1, <- app_assoc; reflexivity.
  - apply Forall_app. split.
    + eapply Forall_impl; [|exact Hlocks]. intros [] Hev; cbn in *; tauto.
    + constructor; [reflexivity|].
      eapply Forall_impl; [|exact Hall1]. intros [] Hev; cbn in *; tauto.
Qed.

End RangeEvents.

Section Ledgers.

Variable bc : BackupClient.
Variables startKey endKey : Key.
Variable backupTS : Z.
Variable path : string.
Variable rangeTree0 : RangeTree.
Variable tr0 : list Event.

Local Abbreviation Accounts := (@Accounts World RangeTree L bc backupTS path rangeTree0).
Local Abbreviation Accounted :=
  (@Accounted World RangeTree L bc backupTS path rangeTree0 tr0).

Ltac acc_auto :=
  try assumption; try tauto; try discriminate;
  try (unfold busy, returned, handled, failures in *;
       rewrite ?length_app, ?length_set_worker; cbn [List.length] in *; lia).

Lemma dispatcher_step_accounts new r :
  Accounts new r -> Accounts new (dispatcher_step r).
Proof.
  intros H. pose proof H as [H1 H2 H3 H4 H5 H6 H7 H8 H9 H10 H11 H12 H13 H14].
  unfold dispatcher_step.
  destruct (to_send r) as [|rg rest] eqn:Hts.
  - destruct (retry_closed r) eqn:Hrc; cbn [negb].
    + destruct (forallb is_Done (workers r)) eqn:Hall; [|exact H].
      constructor; cbn; acc_auto.
    + constructor; cbn; acc_auto.
  - destruct (Nat.ltb_spec (List.length (retry r)) 4); [|exact H].
    constructor; cbn; acc_auto.
    + intros Hc. specialize (H8 Hc). discriminate.
    + intros Hd. destruct H11 as [_ Hc]; [exact Hd|]. specialize (H8 Hc). discriminate.
    + rewrite <- app_assoc. exact H12.
Qed.

Lemma worker_step_accounts i r new :
  trace (st r) = new ++ tr0 -> Accounts new r ->
  exists new',
    trace (st (worker_step E bc backupTS path i r)) = new' ++ tr0 /\
    Accounts new' (worker_step E bc backupTS path i r).
Proof.
  intros Htr H. pose proof H as [H1 H2 H3 H4 H5 H6 H7 H8 H9 H10 H11 H12 H13 H14].
  unfold worker_step.
  destruct (nth_error (workers r) i) as [[|pending ms err|]|] eqn:Hw;
    try (exists new; split; assumption).
  - (* Idle *)
    pose proof (count_set_worker is_Sending (workers r) i) as Cs.
    pose proof (count_set_worker is_Done (workers r) i) as Cd.
    assert (Hnot : forallb is_Done (workers r) = true -> False).
    { intros Hall. pose proof (all_Done_nth _ _ Hall Hw). discriminate. }
    destruct (retry r) as [|rg rest] eqn:Hre.
    + destruct (retry_closed r) eqn:Hrc; [|exists new; split; assumption].
      exists new. split; [exact Htr|].
      specialize (Cs _ Done Hw). specialize (Cd _ Done Hw). cbn in Cs, Cd.
      constructor; cbn; acc_auto.
    + pose proof (handleFineGrained_events bc backupTS path rg (Fork (bo r)) (st r)) as Hh.
      destruct (handleFineGrained E bc (Fork (bo r)) rg backupTS path (st r))
        as [[[sent ms] err] s'].
      destruct Hh as [nw [Hnw HA]]. cbn [snd] in Hnw.
      exists (nw ++ new). split; [cbn; rewrite Hnw, Htr, app_assoc; reflexivity|].
      specialize (Cs _ (Sending sent ms err) Hw).
      specialize (Cd _ (Sending sent ms err) Hw). cbn in Cs, Cd.
      assert (Hin : In rg (current_ranges new)) by (apply H12; left; reflexivity).
      constructor; cbn;
        rewrite ?(puts_range _ HA), ?(forwards_range _ HA), ?(handled_range _ HA),
                ?(failures_range _ HA), ?(current_ranges_range _ HA);
        acc_auto.
      * intros Hd. destruct H11 as [Hf _]; [unfold returned; lia|discriminate].
      * intros x Hx. apply H12. right. exact Hx.
      * apply rounds_accounted_range with (bc := bc) (backupTS := backupTS)
          (path := path) (rg := rg); assumption.
      * apply requests_in_round_range with (rg := rg); assumption.
  - (* Sending *)
    pose proof (count_set_worker is_Sending (workers r) i) as Cs.
    pose proof (count_set_worker is_Done (workers r) i) as Cd.
    assert (Hnot : forallb is_Done (workers r) = true -> False).
    { intros Hall. pose proof (all_Done_nth _ _ Hall Hw). discriminate. }
    destruct pending as [|response pending].
    + destruct err as [err|].
      * destruct (Nat.ltb_spec (List.length (errCh r)) 4);
          [|exists new; split; assumption].
        exists (EvErrCh err :: new). split; [cbn; rewrite Htr; reflexivity|].
        specialize (Cs _ Done Hw). specialize (Cd _ Done Hw). cbn in Cs, Cd.
        unfold handled, failures, busy, returned in *.
        constructor; cbn; acc_auto.
        intros Hd. apply H11. lia.
      * exists (EvBackoffMs ms :: new). split; [cbn; rewrite Htr; reflexivity|].
        specialize (Cs _ Idle Hw). specialize (Cd _ Idle Hw). cbn in Cs, Cd.
        unfold handled, failures, busy, returned in *.
        constructor; cbn; acc_auto.
        intros Hd. apply H11. lia.
    + destruct (Nat.ltb_spec (List.length (respCh r)) 4);
        [|exists new; split; assumption].
      exists (EvRespCh response :: new). split; [cbn; rewrite Htr; reflexivity|].
      specialize (Cs _ (Sending pending ms err) Hw).
      specialize (Cd _ (Sending pending ms err) Hw). cbn in Cs, Cd.
      unfold handled, failures, busy, returned in *.
      constructor; cbn; acc_auto.
      * rewrite rev_app_distr. cbn. rewrite H2. reflexivity.
      * intros Hd. apply H11. lia.
Qed.

Lemma loop_head_accounted bo new (s : St) :
  trace s = new ++ tr0 ->
  map confirmation (forwards new) = puts new ->
  (handled new + failures new <= List.length (current_ranges new))%nat ->
  round_closed new ->
  rounds_accounted new ->
  requests_in_round bc backupTS path new ->
  Accounted (loop_head L startKey endKey bo
               (apply_puts L rangeTree0 (puts new)) s).
Proof.
  intros Htr Hf Hle Hc Hr Hq. unfold loop_head.
  destruct (getIncompleteRange L _ startKey endKey) as [|rg rest] eqn:Hinc.
  - cbn. exists new. repeat split; try assumption. exists []. auto.
  - cbn. exists (EvRound (rg :: rest) :: new).
    split; [rewrite Htr; reflexivity|].
    constructor; cbn; acc_auto.
    apply incl_refl.
Qed.

Lemma select_resp_accounted r new :
  trace (st r) = new ++ tr0 -> Accounts new r ->
  Accounted (select_resp E L startKey endKey r).
Proof.
  intros Htr H. pose proof H as [H1 H2 H3 H4 H5 H6 H7 H8 H9 H10 H11 H12 H13 H14].
  unfold select_resp.
  destruct (respCh r) as [|resp rest] eqn:Hre.
  - destruct (respCh_closed r) eqn:Hrc; [|exists new; split; assumption].
    destruct (H9 eq_refl) as [Hclosed Hall].
    destruct (all_Done_counts _ Hall) as [Hbusy Hret].
    pose proof (H8 Hclosed) as Hts.
    assert (Hfifo : map confirmation (forwards new) = puts new) by exact H2.
    assert (Hle : (handled new + failures new <= List.length (current_ranges new))%nat)
      by lia.
    assert (Hclosedround : round_closed new).
    { intros Hz. destruct H11 as [Hr' _]; [lia|].
      rewrite Hts, Hr', Hbusy, Hz in H10. cbn in H10. lia. }
    unfold step3. destruct (max_ms r =? 0).
    + rewrite H1. apply loop_head_accounted; assumption.
    + unfold BackoffWithMaxSleep, bind, call, ret.
      destruct (maxSleep (bo r) <? totalSleep (bo r) + max_ms r).
      * cbn. exists new. repeat split; try assumption. exists []. auto.
      * rewrite H1.
        change (puts new) with (puts (EvBackoff 2 (max_ms r) :: new)).
        apply loop_head_accounted; try assumption.
        cbn. rewrite Htr. reflexivity.
  - destruct (Error resp); [exact I|].
    exists (EvPutOk (resp_StartKey resp) (resp_EndKey resp) (resp_Files resp) :: new).
    split; [cbn; rewrite Htr; reflexivity|].
    unfold handled, failures in *.
    constructor; cbn; acc_auto.
    + rewrite H1. reflexivity.
    + rewrite H2. cbn. rewrite map_app, <- app_assoc. reflexivity.
Qed.

Lemma step_accounted c r :
  Accounted (Running r) ->
  Accounted (step E L bc startKey endKey backupTS path c r).
Proof.
  intros [new [Htr H]]. destruct c as [|i| |]; cbn [step].
  - exists new. split; [|apply dispatcher_step_accounts; exact H].
    unfold dispatcher_step.
    destruct (to_send r);
      [destruct (negb (retry_closed r)); [|destruct (forallb is_Done (workers r))]
      |destruct (List.length (retry r) <? 4)%nat]; exact Htr.
  - exact (worker_step_accounts i Htr H).
  - pose proof H as [H1 H2 H3 H4 H5 H6 H7 H8 H9 H10 H11 H12 H13 H14].
    unfold select_err. destruct (errCh r); [exists new; split; assumption|].
    cbn. exists new. repeat split; try assumption; [|lia].
    exists (map confirmation (rev (respCh r))). auto.
  - apply select_resp_accounted with (new := new); assumption.
Qed.

Lemma run_accounted sched : forall status,
  Accounted status ->
  Accounted (run E L bc startKey endKey backupTS path sched status).
Proof.
  induction sched as [|c sched IH]; intros status H; [destruct status; exact H|].
  destruct status as [r| |]; cbn [run]; try exact H.
  apply IH. apply step_accounted. exact H.
Qed.

End Ledgers.

Lemma fineGrainedBackup_accounted bc startKey endKey backupTS path sched
    rangeTree (s : St) :
  Accounted L bc backupTS path rangeTree (trace s)
    (fineGrainedBackup E L bc startKey endKey backupTS path sched rangeTree s).
Proof.
  unfold fineGrainedBackup. apply run_accounted.
  change rangeTree with (apply_puts L rangeTree (puts [])) at 2.
  apply loop_head_accounted; cbn; auto. intros _. reflexivity.
Qed.

Lemma busy_returned_le ws : (busy ws + returned ws <= List.length ws)%nat.
Proof.
  unfold busy, returned. induction ws as [|w ws IH]; [cbn; lia|].
  destruct w; cbn; lia.
Qed.

(** X8. At every point of a run the ledger is the one fineGrainedBackup
    was given with putOk applied to the responses the coordinator took
    from respCh, in the order they were sent; it takes them in that
    order, puts nothing that was not sent, and the responses sent and not
    yet put are the ones waiting in respCh.  When the function returns nil
    every response that was sent has been put. *)
Theorem fineGrainedBackup_ledger bc startKey endKey backupTS path sched tree (s : St) :
  match fineGrainedBackup E L bc startKey endKey backupTS path sched tree s with
  | Running r =>
    exists new,
      trace (st r) = new ++ trace s /\
      rangeTree r = apply_puts L tree (puts new) /\
      map confirmation (forwards new) =
      map confirmation (rev (respCh r)) ++ puts new
  | Returned err tree' s' =>
    exists new pending,
      trace s' = new ++ trace s /\
      tree' = apply_puts L tree (puts new) /\
      map confirmation (forwards new) = pending ++ puts new /\
      match err with None => pending = [] | Some _ => True end
  | Fatal _ => False
  end.
Proof.
  pose proof (fineGrainedBackup_accounted bc startKey endKey backupTS path sched tree s) as H.
  pose proof (fineGrainedBackup_inv E L bc startKey endKey backupTS path sched tree s) as HI.
  destruct (fineGrainedBackup E L bc startKey endKey backupTS path sched tree s)
    as [r|err tree' s'|s']; cbn in H, HI.
  - destruct H as [new [Htr [H1 H2 _ _ _ _ _ _ _ _ _ _ _ _]]].
    exists new. auto.
  - destruct H as [new [Htr [Ht [[pending [Hf Hp]] _]]]].
    exists new, pending. auto.
  - exact HI.
Qed.

(** X9. In every round that is reached there are exactly four workers,
    retry and respCh hold at most four elements, and errCh holds the
    errors sent in the round, at most one for each worker that has
    returned: together with the workers still inside handleFineGrained
    they are at most four, so a worker that has an error to send always
    finds room in errCh. *)
Theorem channels_within_capacity bc startKey endKey backupTS path sched tree (s : St) :
  match fineGrainedBackup E L bc startKey endKey backupTS path sched tree s with
  | Running r =>
    List.length (workers r) = 4%nat /\
    (List.length (retry r) <= 4)%nat /\
    (List.length (respCh r) <= 4)%nat /\
    (List.length (errCh r) <= returned (workers r))%nat /\
    (List.length (errCh r) + busy (workers r) <= 4)%nat /\
    exists new,
      trace (st r) = new ++ trace s /\ List.length (errCh r) = failures new
  | _ => True
  end.
Proof.
  pose proof (fineGrainedBackup_accounted bc startKey endKey backupTS path sched tree s) as H.
  destruct (fineGrainedBackup E L bc startKey endKey backupTS path sched tree s)
    as [r|err tree' s'|s']; cbn in H; try exact I.
  destruct H as [new [Htr [_ _ H3 H4 H5 H6 H7 _ _ _ _ _ _ _]]].
  pose proof (busy_returned_le (workers r)).
  repeat split; try assumption; try lia. exists new. auto.
Qed.

(** X10. Within a round every range is given to a worker at most once:
    the ranges not yet sent, those waiting in retry, those being handled,
    those handled and those that ended in an error add up to the ranges
    the round started with.  A round that ended with no worker error has
    handled every one of its ranges; this holds for each round that was
    followed by another one, and for the last round when the function
    returns nil. *)
Theorem rounds_handle_each_range_once
    bc startKey endKey backupTS path sched tree (s : St) :
  match fineGrainedBackup E L bc startKey endKey backupTS path sched tree s with
  | Running r =>
    exists new,
      trace (st r) = new ++ trace s /\
      (List.length (to_send r) + List.length (retry r) + busy (workers r)
       + handled new + failures new = List.length (current_ranges new))%nat /\
      rounds_accounted new
  | Returned err _ s' =>
    exists new,
      trace s' = new ++ trace s /\
      (handled new + failures new <= List.length (current_ranges new))%nat /\
      rounds_accounted new /\
      match err with None => round_closed new | Some _ => True end
  | Fatal _ => False
  end.
Proof.
  pose proof (fineGrainedBackup_accounted bc startKey endKey backupTS path sched tree s) as H.
  pose proof (fineGrainedBackup_inv E L bc startKey endKey backupTS path sched tree s) as HI.
  destruct (fineGrainedBackup E L bc startKey endKey backupTS path sched tree s)
    as [r|err tree' s'|s']; cbn in H, HI.
  - destruct H as [new [Htr [_ _ _ _ _ _ _ _ _ H10 _ _ H13 _]]].
    exists new. auto.
  - destruct H as [new [Htr [_ [_ [Hle [Hc [Hr _]]]]]]].
    exists new. auto.
  - exact HI.
Qed.

(** X11. A worker only takes ranges the ledger reported incomplete at the
    start of its round, and every per-range backup call of a run asks for
    exactly such a range, with the client's cluster ID, the timestamp and
    the path fineGrainedBackup was given. *)
Theorem requests_are_for_incomplete_ranges
    bc startKey endKey backupTS path sched tree (s : St) :
  match fineGrainedBackup E L bc startKey endKey backupTS path sched tree s with
  | Running r =>
    exists new,
      trace (st r) = new ++ trace s /\
      incl (retry r ++ to_send r) (current_ranges new) /\
      requests_in_round bc backupTS path new
  | Returned _ _ s' =>
    exists new,
      trace s' = new ++ trace s /\ requests_in_round bc backupTS path new
  | Fatal _ => False
  end.
Proof.
  pose proof (fineGrainedBackup_accounted bc startKey endKey backupTS path sched tree s) as H.
  pose proof (fineGrainedBackup_inv E L bc startKey endKey backupTS path sched tree s) as HI.
  destruct (fineGrainedBackup E L bc startKey endKey backupTS path sched tree s)
    as [r|err tree' s'|s']; cbn in H, HI.
  - destruct H as [new [Htr [_ _ _ _ _ _ _ _ _ _ _ H12 _ H14]]].
    exists new. auto.
  - destruct H as [new [Htr [_ [_ [_ [_ [_ Hq]]]]]]].
    exists new. auto.
  - exact HI.
Qed.

(** ** No deadlock *)

Lemma worker_cases (ws : list Worker) :
  (exists i pending ms err, nth_error ws i = Some (Sending pending ms err)) \/
  (exists i, nth_error ws i = Some Idle) \/
  forallb is_Done ws = true.
Proof.
  induction ws as [|w ws IH]; [right; right; reflexivity|].
  destruct w as [|pending ms err|].
  - right. left. exists 0%nat. reflexivity.
  - left. exists 0%nat, pending, ms, err. reflexivity.
  - destruct IH as [[i [p [ms [e Hi]]]]|[[i Hi]|Hall]].
    + left. exists (S i), p, ms, e. exact Hi.
    + right. left. exists (S i). exact Hi.
    + right. right. exact Hall.
Qed.

Lemma nth_error_set_worker ws : forall i w w',
  nth_error ws i = Some w -> nth_error (set_worker i w' ws) i = Some w'.
Proof.
  induction ws as [|w0 ws IH]; intros i w w' Hi; [destruct i; discriminate|].
  destruct i as [|i]; cbn in *; [reflexivity|eauto].
Qed.

Section Progress.

Variable bc : BackupClient.
Variables startKey endKey : Key.
Variable backupTS : Z.
Variable path : string.

Local Abbreviation step' := (step E L bc startKey endKey backupTS path).

Lemma loop_head_moves bo tree (s : St) r :
  (List.length (trace (st r)) <= List.length (trace s))%nat ->
  loop_head L startKey endKey bo tree s <> Running r.
Proof.
  intros Hlen. unfold loop_head.
  destruct (getIncompleteRange L tree startKey endKey); [discriminate|].
  intros Heq. inversion Heq as [Hr]. rewrite <- Hr in Hlen. cbn in Hlen. lia.
Qed.

Lemma some_step_moves tree0 new r :
  Accounts L bc backupTS path tree0 new r ->
  exists c, step' c r <> Running r.
Proof.
  intros [H1 H2 H3 H4 H5 H6 H7 H8 H9 H10 H11 H12 H13 H14].
  destruct (errCh r) as [|e0 errs] eqn:Herr.
  2:{ exists SelectErr. cbn. unfold select_err. rewrite Herr. discriminate. }
  destruct (respCh r) as [|resp rest] eqn:Hresp.
  2:{ exists SelectResp. cbn. unfold select_resp. rewrite Hresp.
      destruct (Error resp); [discriminate|].
      intros Heq. inversion Heq as [Hr].
      apply (f_equal (fun r => List.length (respCh r))) in Hr.
      cbn in Hr. rewrite Hresp in Hr. cbn in Hr. lia. }
  destruct (respCh_closed r) eqn:Hrc.
  { exists SelectResp. cbn. unfold select_resp. rewrite Hresp, Hrc.
    unfold step3. destruct (max_ms r =? 0); [apply loop_head_moves; lia|].
    unfold BackoffWithMaxSleep, bind, call, ret.
    destruct (maxSleep (bo r) <? totalSleep (bo r) + max_ms r); [discriminate|].
    apply loop_head_moves. cbn. lia. }
  destruct (worker_cases (workers r)) as [[i [p [ms [e Hi]]]]|[[i Hi]|Hall]].
  - exists (WorkerStep i). cbn. unfold worker_step. rewrite Hi.
    destruct p as [|response p].
    + destruct e as [e|].
      * rewrite Herr. cbn.
        intros Heq. inversion Heq as [Hr].
        apply (f_equal (fun r => List.length (errCh r))) in Hr.
        cbn in Hr. rewrite Herr in Hr. cbn in Hr. lia.
      * intros Heq. inversion Heq as [Hr].
        apply (f_equal (fun r => List.length (trace (st r)))) in Hr.
        cbn in Hr. lia.
    + rewrite Hresp. cbn.
      intros Heq. inversion Heq as [Hr].
      apply (f_equal (fun r => List.length (respCh r))) in Hr.
      cbn in Hr. rewrite Hresp in Hr. cbn in Hr. lia.
  - destruct (retry r) as [|rg rest] eqn:Hretry.
    + destruct (retry_closed r) eqn:Hclosed.
      * exists (WorkerStep i). cbn. unfold worker_step. rewrite Hi, Hretry, Hclosed.
        intros Heq. inversion Heq as [Hr].
        apply (f_equal (fun r => nth_error (workers r) i)) in Hr. cbn in Hr.
        rewrite (nth_error_set_worker _ _ Done Hi), Hi in Hr. discriminate.
      * exists Dispatcher. cbn. unfold dispatcher_step.
        destruct (to_send r) as [|rg rest] eqn:Hts.
        -- rewrite Hclosed. cbn.
           intros Heq. inversion Heq as [Hr].
           apply (f_equal (fun r => retry_closed r)) in Hr. cbn in Hr.
           rewrite Hclosed in Hr. discriminate.
        -- rewrite Hretry. cbn.
           intros Heq. inversion Heq as [Hr].
           apply (f_equal (fun r => List.length (retry r))) in Hr. cbn in Hr.
           rewrite Hretry in Hr. cbn in Hr. lia.
    + exists (WorkerStep i). cbn. unfold worker_step. rewrite Hi, Hretry.
      destruct (handleFineGrained E bc (Fork (bo r)) rg backupTS path (st r))
        as [[[sent ms] err] s'].
      intros Heq. inversion Heq as [Hr].
      apply (f_equal (fun r => List.length (retry r))) in Hr. cbn in Hr.
      rewrite Hretry in Hr. cbn in Hr. lia.
  - destruct (all_Done_counts _ Hall) as [_ Hret].
    cbn in H6.
    destruct H11 as [Hretry Hclosed]; [lia|].
    pose proof (H8 Hclosed) as Hts.
    exists Dispatcher. cbn. unfold dispatcher_step. rewrite Hts, Hclosed, Hall. cbn.
    intros Heq. inversion Heq as [Hr].
    apply (f_equal (fun r => respCh_closed r)) in Hr. cbn in Hr.
    rewrite Hrc in Hr. discriminate.
Qed.

End Progress.

(** X12. A round never deadlocks: as long as fineGrainedBackup has not
    returned, at least one of the dispatcher, the four workers and the
    coordinator can take a step that changes the state. *)
Theorem round_never_deadlocks bc startKey endKey backupTS path sched tree (s : St) :
  match fineGrainedBackup E L bc startKey endKey backupTS path sched tree s with
  | Running r =>
    exists c, step E L bc startKey endKey backupTS path c r <> Running r
  | _ => True
  end.
Proof.
  pose proof (fineGrainedBackup_accounted bc startKey endKey backupTS path sched tree s) as H.
  destruct (fineGrainedBackup E L bc startKey endKey backupTS path sched tree s)
    as [r|err tree' s'|s']; cbn in H; try exact I.
  destruct H as [new [_ H]]. exact (some_step_moves startKey endKey H).
Qed.

(** ** The whole invocation *)

Lemma fineGrained_event_not_setup bc backupTS path ev :
  fineGrained_event bc backupTS path ev ->
  is_setup ev = false /\ is_CheckDupFiles ev = false /\
  for_cluster (clusterID bc) path ev.
Proof. destruct ev; cbn; tauto. Qed.

Lemma Forall_not_setup bc backupTS path new :
  Forall (fineGrained_event bc backupTS path) new ->
  Forall (fun ev => is_setup ev = false) new /\
  existsb is_CheckDupFiles new = false /\
  Forall (for_cluster (clusterID bc) path) new.
Proof.
  induction 1 as [|ev new Hev _ [IH1 [IH2 IH3]]]; [repeat split; constructor|].
  destruct (fineGrained_event_not_setup _ _ _ _ Hev) as [H1 [H2 H3]].
  repeat split; [constructor; assumption| |constructor; assumption].
  cbn. rewrite H2, IH2. reflexivity.
Qed.

(** X13. BackupRange sets up in a fixed order and stops at the first
    failure: a failed timestamp allocation is the only call made; a
    failed store listing is the second and last; a failed push-down is
    the third and last, and its error is returned as it is.  The
    push-down is called once, with the stores the placement driver
    listed and one request for the whole of [startKey, endKey); nothing
    that follows allocates a timestamp, lists the stores or pushes down
    again. *)
Theorem BackupRange_setup sched bc startKey endKey path (w : World) :
  let run := BackupRange E L sched bc startKey endKey path (init w) in
  let '(p, l, err1, w1) := pd_GetTS E w in
  let backupTS := meta_EncodeTs E {| Physical := p; Logical := l |} in
  let req := broadcast_request bc startKey endKey backupTS path in
  match err1 with
  | Some e =>
    run = (Return (Some (Trace e)), {| world := w1; trace := [EvGetTS] |})
  | None =>
    let '(allStores, err2, w2) := pd_GetAllStores E w1 in
    match err2 with
    | Some e =>
      run = (Return (Some (Trace e)),
             {| world := w2; trace := [EvGetAllStores; EvGetTS] |})
    | None =>
      let '(results, err3, w3) := pushBackup E req allStores w2 in
      let setup := [EvPushBackup req allStores; EvGetAllStores; EvGetTS] in
      match err3 with
      | Some e => run = (Return (Some e), {| world := w3; trace := setup |})
      | None =>
        exists new,
          trace (snd run) = new ++ setup /\
          Forall (fun ev => is_setup ev = false) new
      end
    end
  end.
Proof.
  unfold BackupRange, GetTS, GetAllStores, call, log, init, broadcast_request.
  cbn [world trace].
  destruct (pd_GetTS E w) as [[[p l] e] w1]. cbv zeta.
  destruct e as [e|]; [reflexivity|].
  cbn [world trace]. destruct (pd_GetAllStores E w1) as [[allStores e] w2].
  destruct e as [e|]; [reflexivity|].
  cbn [world trace].
  set (ts := meta_EncodeTs E {| Physical := p; Logical := l |}).
  match goal with |- context [pushBackup E ?req _ _] => set (req0 := req) end.
  destruct (pushBackup E req0 allStores w2) as [[results e] w3].
  destruct e as [e|]; [reflexivity|].
  cbn [world trace].
  match goal with |- context [fineGrainedBackup E L bc startKey endKey ts path sched ?t ?s0] =>
    pose proof (fineGrainedBackup_inv E L bc startKey endKey ts path sched t s0) as HI;
    destruct (fineGrainedBackup E L bc startKey endKey ts path sched t s0)
      as [r|err tree s'|s']
  end; cbn in HI.
  - destruct HI as [[new [Hnew HF]] _ _ _ _ _ _ _]. cbn [snd].
    exists new. split; [exact Hnew|]. apply (Forall_not_setup HF).
  - destruct HI as [[new [Hnew HF]] _].
    pose proof (proj1 (Forall_not_setup HF)) as Hn.
    destruct err as [err|]; [exists new; auto|].
    cbn [world trace]. destruct (proto_Marshal E _) as [data e].
    destruct e as [e|]; cbn [snd trace].
    { eexists (_ :: new). split; [rewrite Hnew; reflexivity|].
      constructor; [reflexivity|exact Hn]. }
    cbn [world trace]. destruct (ioutil_WriteFile E _ data 420 (world s')) as [e w4].
    destruct e as [e|]; cbn [snd trace].
    + eexists (_ :: _ :: new). split; [rewrite Hnew; reflexivity|].
      repeat (constructor; [reflexivity|]). exact Hn.
    + eexists (_ :: _ :: _ :: new). split; [rewrite Hnew; reflexivity|].
      repeat (constructor; [reflexivity|]). exact Hn.
  - contradiction.
Qed.

(** X14. The audit for duplicate files runs exactly when BackupRange
    returns nil: on no other outcome is it reached. *)
Theorem audit_only_on_success sched bc startKey endKey path (w : World) :
  let '(res, s') := BackupRange E L sched bc startKey endKey path (init w) in
  audit_reached (trace s') =
  match res with Return None => true | _ => false end.
Proof.
  unfold BackupRange, GetTS, GetAllStores, call, log, init. cbn [world trace].
  destruct (pd_GetTS E w) as [[[p l] e] w1]. destruct e as [e|]; [reflexivity|].
  cbn [world trace]. destruct (pd_GetAllStores E w1) as [[allStores e] w2].
  destruct e as [e|]; [reflexivity|].
  cbn [world trace].
  set (ts := meta_EncodeTs E {| Physical := p; Logical := l |}).
  match goal with |- context [pushBackup E ?req _ _] => set (req0 := req) end.
  destruct (pushBackup E req0 allStores w2) as [[results e] w3].
  destruct e as [e|]; [reflexivity|].
  cbn [world trace].
  match goal with |- context [fineGrainedBackup E L bc startKey endKey ts path sched ?t ?s0] =>
    pose proof (fineGrainedBackup_inv E L bc startKey endKey ts path sched t s0) as HI;
    destruct (fineGrainedBackup E L bc startKey endKey ts path sched t s0)
      as [r|err tree s'|s']
  end; cbn in HI; [| |contradiction].
  - destruct HI as [[new [Hnew HF]] _ _ _ _ _ _ _].
    unfold audit_reached. rewrite Hnew, existsb_app.
    rewrite (proj1 (proj2 (Forall_not_setup HF))). reflexivity.
  - destruct HI as [[new [Hnew HF]] _].
    assert (Hn : audit_reached (trace s') = false).
    { unfold audit_reached. rewrite Hnew, existsb_app.
      rewrite (proj1 (proj2 (Forall_not_setup HF))). reflexivity. }
    destruct err as [err|]; [exact Hn|].
    cbn [world trace]. destruct (proto_Marshal E _) as [data e].
    destruct e as [e|]; [exact Hn|].
    cbn [world trace]. destruct (ioutil_WriteFile E _ data 420 (world s')) as [e w4].
    destruct e as [e|]; [exact Hn|reflexivity].
Qed.

(** X15. A client made by NewBackupClient carries the cluster ID the
    placement driver reported at that moment, and every backup request
    of a BackupRange it runs, the broadcast one and the one of every
    sub-range, names that cluster and the destination path it was
    given. *)
Theorem requests_name_cluster_and_path
    pd_GetClusterID sched startKey endKey path (w0 w : World) :
  let '(bc, err) := NewBackupClient pd_GetClusterID w0 in
  err = None /\
  Forall (for_cluster (pd_GetClusterID w0) path)
    (trace (snd (BackupRange E L sched bc startKey endKey path (init w)))).
Proof.
  unfold NewBackupClient. split; [reflexivity|].
  set (bc := {| clusterID := pd_GetClusterID w0 |}).
  change (pd_GetClusterID w0) with (clusterID bc).
  unfold BackupRange, GetTS, GetAllStores, call, log, init. cbn [world trace].
  destruct (pd_GetTS E w) as [[[p l] e] w1].
  destruct e as [e|]; [repeat constructor|].
  cbn [world trace]. destruct (pd_GetAllStores E w1) as [[allStores e] w2].
  destruct e as [e|]; [repeat constructor|].
  cbn [world trace].
  set (ts := meta_EncodeTs E {| Physical := p; Logical := l |}).
  match goal with |- context [pushBackup E ?req _ _] => set (req0 := req) end.
  destruct (pushBackup E req0 allStores w2) as [[results e] w3].
  assert (Hpre : Forall (for_cluster (clusterID bc) path)
                   [EvPushBackup req0 allStores; EvGetAllStores; EvGetTS]).
  { repeat constructor. }
  destruct e as [e|]; [exact Hpre|].
  cbn [world trace].
  match goal with |- context [fineGrainedBackup E L bc startKey endKey ts path sched ?t ?s0] =>
    pose proof (fineGrainedBackup_inv E L bc startKey endKey ts path sched t s0) as HI;
    destruct (fineGrainedBackup E L bc startKey endKey ts path sched t s0)
      as [r|err tree s'|s']
  end; cbn in HI; [| |contradiction].
  - destruct HI as [[new [Hnew HF]] _ _ _ _ _ _ _]. cbn [snd].
    rewrite Hnew. apply Forall_app. split; [apply (Forall_not_setup HF)|exact Hpre].
  - destruct HI as [[new [Hnew HF]] _].
    assert (Hs : Forall (for_cluster (clusterID bc) path) (trace s')).
    { rewrite Hnew. apply Forall_app.
      split; [apply (Forall_not_setup HF)|exact Hpre]. }
    destruct err as [err|]; [exact Hs|].
    cbn [world trace]. destruct (proto_Marshal E _) as [data e].
    destruct e as [e|]; cbn [snd trace]; [constructor; [exact I|exact Hs]|].
    cbn [world trace]. destruct (ioutil_WriteFile E _ data 420 (world s')) as [e w4].
    destruct e as [e|]; cbn [snd trace];
      repeat (constructor; [exact I|]); exact Hs.
Qed.

(** X16. When BackupRange returns nil, the manifest it encoded holds the
    destination path and the files of the ledger of confirmed ranges of
    the push-down after putOk of every response the workers sent on
    respCh, in the order they were sent, and of nothing else. *)
Theorem manifest_lists_confirmed_files
    sched bc startKey endKey path (w : World) p l w1 allStores w2 results w3 s' :
  pd_GetTS E w = (p, l, None, w1) ->
  pd_GetAllStores E w1 = (allStores, None, w2) ->
  pushBackup E
    (broadcast_request bc startKey endKey
       (meta_EncodeTs E {| Physical := p; Logical := l |}) path)
    allStores w2 = (results, None, w3) ->
  BackupRange E L sched bc startKey endKey path (init w) = (Return None, s') ->
  exists new data dup,
    trace s' =
      EvCheckDupFiles dup :: EvWriteFile "backupmeta" data 420
      :: EvMarshal
           {| meta_Files :=
                flat_map Files
                  (Ascend L (apply_puts L (ok results) (puts new)));
              meta_Path := path |}
      :: new ++ [EvPushBackup
                   (broadcast_request bc startKey endKey
                      (meta_EncodeTs E {| Physical := p; Logical := l |}) path)
                   allStores; EvGetAllStores; EvGetTS] /\
    map confirmation (forwards new) = puts new.
Proof.
  intros Hts Hstores Hpush.
  unfold BackupRange, GetTS, GetAllStores, call, log, init. cbn [world trace].
  rewrite Hts. cbn [world trace]. rewrite Hstores. cbn [world trace].
  unfold broadcast_request in Hpush. rewrite Hpush. cbn [world trace].
  set (ts := meta_EncodeTs E {| Physical := p; Logical := l |}).
  match goal with |- context [fineGrainedBackup E L bc startKey endKey ts path sched ?t ?s0] =>
    pose proof (fineGrainedBackup_accounted bc startKey endKey ts path sched t s0) as HA;
    destruct (fineGrainedBackup E L bc startKey endKey ts path sched t s0)
      as [r|err tree s1|s1]
  end; cbn in HA; try discriminate.
  destruct HA as [new [Hnew [Htree [[pending [Hf Hp]] _]]]].
  destruct err as [err|]; [discriminate|]. subst pending. cbn in Hf.
  cbn [world trace]. destruct (proto_Marshal E _) as [data e].
  destruct e as [e|]; [discriminate|].
  cbn [world trace]. destruct (ioutil_WriteFile E _ data 420 (world s1)) as [e w4].
  destruct e as [e|]; [discriminate|].
  intros Hrun. inversion Hrun; subst s'. cbn [trace].
  exists new, data, (checkDupFiles L tree).
  rewrite Hnew, Htree. split; [reflexivity|exact Hf].
Qed.

(** ** Every round can come to its end *)

Lemma work_set_worker ws : forall i w w',
  nth_error ws i = Some w ->
  (list_sum (map work (set_worker i w' ws)) + work w =
   list_sum (map work ws) + work w')%nat.
Proof.
  induction ws as [|w0 ws IH]; intros i w w' Hi; [destruct i; discriminate|].
  destruct i as [|i]; cbn [nth_error] in Hi.
  - inversion Hi; subst. unfold list_sum. cbn [set_worker map fold_right]. lia.
  - specialize (IH i w w' Hi). unfold list_sum in *.
    cbn [set_worker map fold_right]. lia.
Qed.

Section RoundEnd.

Variable bc : BackupClient.
Variables startKey endKey : Key.
Variable backupTS : Z.
Variable path : string.
Variable rangeTree0 : RangeTree.
Variable tr0 : list Event.

Local Abbreviation step' := (step E L bc startKey endKey backupTS path).
Local Abbreviation run' := (run E L bc startKey endKey backupTS path).

(** What is known of a round that a run has reached. *)
Local Abbreviation Reached r :=
  (Inv bc backupTS path tr0 r /\
   Accounted L bc backupTS path rangeTree0 tr0 (Running r)).

(** Some continuation brings the round to a point where the coordinator
    can leave the select loop, without starting another round. *)
Local Abbreviation Ends r :=
  (exists more r',
      run' more (Running r) = Running r' /\ can_leave r' /\
      rounds (trace (st r')) = rounds (trace (st r))).

Lemma reached_step c (r r1 : Round World RangeTree) :
  Reached r -> step' c r = Running r1 -> Reached r1.
Proof.
  intros [HI HA] Hs. split.
  - pose proof (step_inv E L startKey endKey c HI) as H.
    rewrite Hs in H. exact H.
  - pose proof (step_accounted startKey endKey c HA) as H.
    rewrite Hs in H. exact H.
Qed.

Lemma ends_step c (r r1 : Round World RangeTree) :
  step' c r = Running r1 ->
  rounds (trace (st r1)) = rounds (trace (st r)) ->
  Ends r1 -> Ends r.
Proof.
  intros Hs Hr [more [r' [Hrun [Hc Hr']]]].
  exists (c :: more), r'. cbn [run]. rewrite Hs.
  split; [exact Hrun|]. split; [exact Hc|]. congruence.
Qed.

Lemma rounds_range rg nw tr :
  Forall (range_event bc backupTS path rg) nw -> rounds (nw ++ tr) = rounds tr.
Proof.
  induction 1 as [|ev nw Hev _ IH]; [reflexivity|].
  destruct ev; cbn in *; try contradiction; exact IH.
Qed.

Ltac measure Hk Hj :=
  rewrite <- ?Hk, <- ?Hj; unfold untaken, round_work;
  cbn [to_send retry workers respCh retry_closed respCh_closed].

Lemma round_comes_to_an_end : forall k j (r : Round World RangeTree),
  Reached r -> untaken r = k -> round_work r = j -> Ends r.
Proof.
  induction k as [k IHk] using (well_founded_induction lt_wf).
  induction j as [j IHj] using (well_founded_induction lt_wf).
  intros r HG Hk Hj.
  assert (Hstep : forall c r1,
             step' c r = Running r1 ->
             rounds (trace (st r1)) = rounds (trace (st r)) ->
             (untaken r1 < k)%nat \/
             (untaken r1 = k /\ (round_work r1 < j)%nat) ->
             Ends r).
  { intros c r1 Hs Hr Hm. apply (@ends_step c r r1 Hs Hr).
    pose proof (@reached_step c r r1 HG Hs) as HG1.
    destruct Hm as [Hlt|[Heq Hlt]].
    - exact (IHk _ Hlt _ r1 HG1 eq_refl eq_refl).
    - exact (IHj _ Hlt r1 HG1 Heq eq_refl). }
  destruct HG as [HI [new [Htr HA]]].
  pose proof (acc_errCh HA) as H6. pose proof (acc_closed HA) as H8.
  pose proof (acc_drained HA) as H11. pose proof (acc_workers HA) as H3.
  pose proof (inv_respCh HI) as Hno.
  clear IHk IHj HA HI Htr.
  destruct (errCh r) as [|e0 errs] eqn:Herr.
  2:{ exists [], r. split; [reflexivity|]. split; [|reflexivity].
      right. rewrite Herr. discriminate. }
  destruct (respCh r) as [|resp rest] eqn:Hresp.
  2:{ (* the coordinator takes a response *)
      assert (Hnone : Error resp = None) by (inversion Hno; assumption).
      assert (Hs : exists r1,
                 step' SelectResp r = Running r1 /\
                 to_send r1 = to_send r /\ retry r1 = retry r /\
                 workers r1 = workers r /\ respCh r1 = rest /\
                 retry_closed r1 = retry_closed r /\
                 respCh_closed r1 = respCh_closed r /\
                 rounds (trace (st r1)) = rounds (trace (st r))).
      { cbn [step]. unfold select_resp. rewrite Hresp, Hnone.
        eexists. split; [reflexivity|]. cbn. auto 10. }
      destruct Hs as [r1 [Hs [E1 [E2 [E3 [E4 [E5 [E6 E7]]]]]]]].
      apply (Hstep SelectResp r1 Hs E7). right.
      measure Hk Hj. rewrite E1, E2, E3, E4, E5, E6, Hresp.
      cbn [List.length]. lia. }
  destruct (respCh_closed r) eqn:Hrc.
  { exists [], r. split; [reflexivity|]. split; [|reflexivity].
    left. unfold round_over. rewrite Hresp. exact Hrc. }
  destruct (worker_cases (workers r)) as [[i [p [ms [e Hi]]]]|[[i Hi]|Hall]].
  - (* a worker inside handleFineGrained *)
    pose proof (fun w' => work_set_worker (workers r) i w' Hi) as Hw.
    destruct p as [|response p].
    + destruct e as [e|].
      * (* it sends its error *)
        exists [WorkerStep i], (worker_step E bc backupTS path i r).
        split; [reflexivity|]. unfold worker_step. rewrite Hi, Herr.
        cbn [List.length Nat.ltb Nat.leb errCh st trace logged log snd rounds].
        split; [right; discriminate|reflexivity].
      * (* it returns from handleFineGrained *)
        apply (Hstep (WorkerStep i) (worker_step E bc backupTS path i r));
          [reflexivity| |]; unfold worker_step; rewrite Hi.
        -- reflexivity.
        -- right. measure Hk Hj. rewrite Hresp, Hrc.
           specialize (Hw Idle). cbn [work List.length] in Hw. lia.
    + (* it sends a response *)
      apply (Hstep (WorkerStep i) (worker_step E bc backupTS path i r));
        [reflexivity| |]; unfold worker_step; rewrite Hi, Hresp;
        cbn [List.length Nat.ltb Nat.leb].
      * reflexivity.
      * right. measure Hk Hj. rewrite Hresp, Hrc.
        specialize (Hw (Sending p ms e)). cbn [work List.length app] in Hw |- *.
        lia.
  - (* an idle worker *)
    pose proof (fun w' => work_set_worker (workers r) i w' Hi) as Hw.
    destruct (retry r) as [|rg rest] eqn:Hretry.
    + destruct (retry_closed r) eqn:Hclosed.
      * (* it leaves its loop *)
        apply (Hstep (WorkerStep i) (worker_step E bc backupTS path i r));
          [reflexivity| |]; unfold worker_step; rewrite Hi, Hretry, Hclosed.
        -- reflexivity.
        -- right. measure Hk Hj. rewrite Hresp, Hrc, Hretry, Hclosed.
           specialize (Hw Done). cbn [work List.length] in Hw |- *. lia.
      * (* the dispatcher sends a range or closes retry *)
        apply (Hstep Dispatcher (dispatcher_step r));
          [reflexivity| |]; unfold dispatcher_step;
          destruct (to_send r) as [|rg rest] eqn:Hts;
          rewrite ?Hclosed, ?Hretry; cbn [negb List.length Nat.ltb Nat.leb];
          try reflexivity.
        -- right. measure Hk Hj. rewrite Hts, Hretry, Hclosed, Hresp, Hrc.
           cbn [List.length negb Nat.b2n]. lia.
        -- right. measure Hk Hj. rewrite Hts, Hretry, Hclosed, Hresp, Hrc.
           cbn [List.length negb Nat.b2n app]. lia.
    + (* it takes a range *)
      destruct (handleFineGrained_events bc backupTS path rg (Fork (bo r)) (st r))
        as [nw [Hnw Hall]].
      apply (Hstep (WorkerStep i) (worker_step E bc backupTS path i r));
        [reflexivity| |]; unfold worker_step; rewrite Hi, Hretry;
        destruct (handleFineGrained E bc (Fork (bo r)) rg backupTS path (st r))
          as [[[sent ms] err] s'].
      * cbn [st]. cbn [snd] in Hnw. rewrite Hnw. exact (rounds_range _ Hall).
      * left. measure Hk Hj. rewrite Hretry. cbn [List.length]. lia.
  - (* all workers have returned: the dispatcher closes respCh *)
    destruct (all_Done_counts _ Hall) as [_ Hret].
    assert (Hf : failures new = 0%nat) by (rewrite <- H6; reflexivity).
    destruct H11 as [Hretry Hclosed]; [lia|].
    pose proof (H8 Hclosed) as Hts.
    apply (Hstep Dispatcher (dispatcher_step r));
      [reflexivity| |]; unfold dispatcher_step; rewrite Hts, Hclosed, Hall;
      cbn [negb].
    + reflexivity.
    + right. measure Hk Hj. rewrite Hts, Hretry, Hclosed, Hresp, Hrc.
      cbn [List.length negb Nat.b2n]. lia.
Qed.

End RoundEnd.

(** X19. Every round can come to its end.  From every point a run of
    fineGrainedBackup reaches before it returns, in any order of the
    goroutines, some continuation brings it, without starting another
    round, to a point where the coordinator can leave the select loop:
    respCh is closed and empty, or a worker's error waits in errCh.  In
    particular, when the ledger reports something incomplete, some
    schedule brings the first round to such a point.  Calls outside the
    package are taken to return. *)
Theorem round_can_end bc startKey endKey backupTS path tree (s : St) :
  (forall sched r,
     fineGrainedBackup E L bc startKey endKey backupTS path sched tree s =
       Running r ->
     exists more r',
       fineGrainedBackup E L bc startKey endKey backupTS path (sched ++ more)
         tree s = Running r' /\
       can_leave r' /\
       rounds (trace (st r')) = rounds (trace (st r))) /\
  (getIncompleteRange L tree startKey endKey <> [] ->
   exists sched r,
     fineGrainedBackup E L bc startKey endKey backupTS path sched tree s =
       Running r /\
     can_leave r /\
     rounds (trace (st r)) =
       getIncompleteRange L tree startKey endKey :: rounds (trace s)).
Proof.
  assert (Hall : forall sched r,
     fineGrainedBackup E L bc startKey endKey backupTS path sched tree s =
       Running r ->
     exists more r',
       fineGrainedBackup E L bc startKey endKey backupTS path (sched ++ more)
         tree s = Running r' /\
       can_leave r' /\
       rounds (trace (st r')) = rounds (trace (st r))).
  { intros sched r Hrun.
    pose proof (fineGrainedBackup_inv E L bc startKey endKey backupTS path sched tree s) as HI.
    pose proof (fineGrainedBackup_accounted bc startKey endKey backupTS path sched tree s) as HA.
    rewrite Hrun in HI, HA. cbn [Inv_status] in HI.
    destruct (round_comes_to_an_end startKey endKey (conj HI HA) eq_refl eq_refl)
      as [more [r' [Hmore H]]].
    exists more, r'. split; [|exact H].
    unfold fineGrainedBackup in *. rewrite run_app, Hrun. exact Hmore. }
  split; [exact Hall|].
  intros Hinc.
  destruct (getIncompleteRange L tree startKey endKey) as [|rg rest] eqn:Hi;
    [contradiction|].
  assert (H0 : exists r0,
             fineGrainedBackup E L bc startKey endKey backupTS path [] tree s =
               Running r0 /\
             rounds (trace (st r0)) = (rg :: rest) :: rounds (trace s)).
  { unfold fineGrainedBackup, loop_head. rewrite Hi. cbn [run].
    eexists. split; reflexivity. }
  destruct H0 as [r0 [Hrun0 Hr0]].
  destruct (Hall [] r0 Hrun0) as [more [r' [Hrun [Hc Hr]]]].
  exists ([] ++ more), r'. split; [exact Hrun|]. split; [exact Hc|].
  rewrite Hr. exact Hr0.
Qed.

End Further.

Section RegionBackoff.

Variables World RangeTree : Type.
Variable E : External World RangeTree.
Variable L : Ledger RangeTree.

Local Abbreviation St := (St World).

Lemma respFn_region bo resp c (s : St) c' s' :
  reports_region_error resp = true ->
  respFn E bo resp c s = (None, c', s') ->
  1000 <= max c'.
Proof.
  unfold reports_region_error, respFn, onBackupResponse, bind, ret.
  destruct (Error resp) as [e|]; [|discriminate].
  destruct (Detail e) as [[cid|v|re]|]; try discriminate.
  intros _. destruct (negb (ignorable re)); [discriminate|].
  intros H. inversion H; subst. cbn [max].
  destruct (Z.ltb_spec (max c) 1000); lia.
Qed.

Lemma SendBackup_recv_region bo resps : forall fin c (s : St) c' s',
  existsb reports_region_error resps = true ->
  SendBackup_recv (respFn E bo) resps fin c s = (None, c', s') ->
  1000 <= max c'.
Proof.
  induction resps as [|resp rest IH]; intros fin c s c' s' Hex Hrun;
    [discriminate|].
  cbn [SendBackup_recv] in Hrun. unfold bind in Hrun.
  destruct (respFn E bo resp c s) as [[e c1] s1] eqn:Hr.
  destruct e as [e|]; [discriminate|].
  cbn in Hex. apply orb_true_iff in Hex. destruct Hex as [Hreg|Hex].
  - pose proof (respFn_region _ _ _ _ Hreg Hr) as H1.
    pose proof (SendBackup_recv_sent E bo rest fin c1 s1) as Hm.
    rewrite Hrun in Hm. lia.
  - eapply IH; eassumption.
Qed.

(** X18. A region error in the node's stream always makes the worker ask
    for a backoff: when handleFineGrained returns without error although
    the stream held a response with a region error, the backoff it
    returns is at least 1000 ms. *)
Theorem handleFineGrained_region_backoff
    bc bo rg backupTS path (s : St) leader s1 forwarded backoffMs s' :
  findRegionLeader E (StartKey rg) s = (inl leader, s1) ->
  existsb reports_region_error
    (fst (fst (backup_stream E (StoreId leader)
                 (range_request bc backupTS path rg) (world s1)))) = true ->
  handleFineGrained E bc bo rg backupTS path s =
    (forwarded, backoffMs, None, s') ->
  1000 <= backoffMs.
Proof.
  intros Hl Hex. unfold handleFineGrained, bind. rewrite Hl.
  unfold SendBackup, bind, call. fold (range_request bc backupTS path rg).
  destruct (backup_stream E (StoreId leader) (range_request bc backupTS path rg)
              (world s1)) as [[resps fin] w2]. cbn [fst snd] in *.
  match goal with
  | |- context [SendBackup_recv ?f resps fin ?c ?s2] =>
    destruct (SendBackup_recv f resps fin c s2) as [[e c'] s3] eqn:Hrun
  end.
  destruct e as [e|]; unfold ret; [discriminate|].
  intros H. inversion H; subst.
  eapply SendBackup_recv_region; eassumption.
Qed.

End RegionBackoff.

(** * Further concrete runs *)

(** A lock whose remaining lifetime is reported as negative: backoff 0. *)
Lemma onBackupResponse_kv_error_witness :
  onBackupResponse (scripted (locked_for (-5))) (NewBackoffer 80000)
    (failed lock_conflict) (init 0%nat) =
  (None, 0, None,
   {| world := 1%nat; trace := [EvResolveLocks [NewLock a_lock]] |}).
Proof.
  exact (@onBackupResponse_kv_error nat (list Range)
           (scripted (locked_for (-5))) (NewBackoffer 80000)
           (failed lock_conflict) lock_conflict
           {| Locked := Some a_lock; Retryable := ""; Abort := "" |}
           (init 0%nat) eq_refl eq_refl).
Defined.

(** No leader for [k] in five lookups: five lookups and 1000 ms. *)
Lemma findRegionLeader_error_witness :
  exists new,
    failed_lookups (kk ++ ["000"%byte])%list 5 = new ++ [] /\
    lookups new = 5%nat /\ sleep_total new = 1000.
Proof.
  assert (H : findRegionLeader (scripted leaderless) kk (init 0%nat) =
              (inr (Errorf_can_not_find_region (kk ++ ["000"%byte])%list),
               {| world := 10%nat;
                  trace := failed_lookups (kk ++ ["000"%byte])%list 5 |}))
    by (vm_compute; reflexivity).
  exact (proj2 (findRegionLeader_error (scripted leaderless) kk (init 0%nat) H)).
Defined.

(** The node confirms [k, m): the confirmation is what is sent. *)
Lemma handleFineGrained_forwards_confirmed_witness :
  exists leader s1 resps,
    findRegionLeader (scripted calm) kk (init 0%nat) = (inl leader, s1) /\
    fst (backup_stream (scripted calm) (StoreId leader)
           (range_request client 1310727 "dst"
              {| StartKey := kk; EndKey := km; Files := [] |}) (world s1))
    = (resps, None) /\
    [ {| Error := None; resp_StartKey := kk; resp_EndKey := km;
         resp_Files := [file3] |} ] = filter confirmed_response resps /\
    0 <= 0.
Proof.
  assert (H : handleFineGrained (scripted calm) client (NewBackoffer 80000)
                {| StartKey := kk; EndKey := km; Files := [] |} 1310727 "dst"
                (init 0%nat) =
              ([ {| Error := None; resp_StartKey := kk; resp_EndKey := km;
                    resp_Files := [file3] |} ], 0, None,
               {| world := 2%nat;
                  trace := [EvSendBackup 1
                              (range_request client 1310727 "dst"
                                 {| StartKey := kk; EndKey := km; Files := [] |});
                            EvGetRegion (kk ++ ["000"%byte])%list] |}))
    by (vm_compute; reflexivity).
  exact (handleFineGrained_forwards_confirmed (scripted calm) client
           (NewBackoffer 80000) {| StartKey := kk; EndKey := km; Files := [] |}
           1310727 "dst" (init 0%nat) H).
Defined.

(** A region error before the confirmation: backoff 1000. *)
Lemma handleFineGrained_region_backoff_witness : 1000 <= 1000.
Proof.
  assert (Hl : findRegionLeader (scripted stale_leader) kk (init 0%nat) =
               (inl leader1,
                {| world := 1%nat;
                   trace := [EvGetRegion (kk ++ ["000"%byte])%list] |}))
    by (vm_compute; reflexivity).
  assert (H : handleFineGrained (scripted stale_leader) client (NewBackoffer 80000)
                {| StartKey := kk; EndKey := km; Files := [] |} 1310727 "dst"
                (init 0%nat) =
              ([ {| Error := None; resp_StartKey := kk; resp_EndKey := km;
                    resp_Files := [file1] |} ], 1000, None,
               {| world := 2%nat;
                  trace := [EvSendBackup 1
                              (range_request client 1310727 "dst"
                                 {| StartKey := kk; EndKey := km; Files := [] |});
                            EvGetRegion (kk ++ ["000"%byte])%list] |}))
    by (vm_compute; reflexivity).
  exact (handleFineGrained_region_backoff (scripted stale_leader) client
           (NewBackoffer 80000) {| StartKey := kk; EndKey := km; Files := [] |}
           1310727 "dst" (init 0%nat) Hl eq_refl H).
Defined.

(** Every call succeeds: the manifest lists the file of the push-down and
    the files of the two confirmations. *)
Lemma manifest_lists_confirmed_files_witness :
  exists new data dup,
    trace (snd (BackupRange (scripted calm) ledger two_rounds client ka km "dst"
                  (init 0%nat))) =
      EvCheckDupFiles dup :: EvWriteFile "backupmeta" data 420
      :: EvMarshal
           {| meta_Files :=
                flat_map Files
                  (Ascend ledger (apply_puts ledger (ok pushed) (puts new)));
              meta_Path := "dst" |}
      :: new ++ [EvPushBackup (broadcast_request client ka km 1310727 "dst")
                   [store1]; EvGetAllStores; EvGetTS] /\
    map confirmation (forwards new) = puts new.
Proof.
  destruct (BackupRange (scripted calm) ledger two_rounds client ka km "dst"
              (init 0%nat)) as [res s'] eqn:Hrun.
  assert (Hres : res = Return None).
  { apply (f_equal fst) in Hrun. vm_compute in Hrun. congruence. }
  subst res. cbn [snd].
  exact (@manifest_lists_confirmed_files nat (list Range) (scripted calm) ledger
           two_rounds client ka km "dst" 0%nat 5 7 1%nat [store1] 2%nat
           pushed 3%nat s' eq_refl eq_refl eq_refl Hrun).
Defined.

(** A round in which worker 0 has just taken [a, f) can be brought to
    its end, and so can the first round of a run that starts with [a, f)
    and [k, m) incomplete. *)
Lemma round_can_end_witness :
  (exists more r',
     fineGrainedBackup (scripted calm) ledger client ka km 1310727 "dst"
       ([Dispatcher; WorkerStep 0] ++ more) (ok pushed) (init 0%nat) =
       Running r' /\
     can_leave r' /\
     rounds (trace (st r')) =
       [[ {| StartKey := ka; EndKey := kf; Files := [] |};
          {| StartKey := kk; EndKey := km; Files := [] |} ]]) /\
  (exists sched r,
     fineGrainedBackup (scripted calm) ledger client ka km 1310727 "dst"
       sched (ok pushed) (init 0%nat) = Running r /\
     can_leave r /\
     rounds (trace (st r)) =
       [[ {| StartKey := ka; EndKey := kf; Files := [] |};
          {| StartKey := kk; EndKey := km; Files := [] |} ]]).
Proof.
  pose proof (round_can_end (scripted calm) ledger client ka km 1310727 "dst"
                (ok pushed) (init 0%nat)) as [Hany Hfirst].
  split.
  - destruct (fineGrainedBackup (scripted calm) ledger client ka km 1310727 "dst"
                [Dispatcher; WorkerStep 0] (ok pushed) (init 0%nat))
      as [r|e t s'|s'] eqn:Hrun; try (vm_compute in Hrun; discriminate).
    destruct (Hany [Dispatcher; WorkerStep 0] r Hrun)
      as [more [r' [H1 [H2 H3]]]].
    exists more, r'. split; [exact H1|]. split; [exact H2|].
    rewrite H3. vm_compute in Hrun. injection Hrun as Hr. subst r. reflexivity.
  - assert (Hinc : getIncompleteRange ledger (ok pushed) ka km <> [])
      by (vm_compute; discriminate).
    destruct (Hfirst Hinc) as [sched [r [H1 [H2 H3]]]].
    exists sched, r. split; [exact H1|]. split; [exact H2|].
    rewrite H3. reflexivity.
Defined.
